(** * sudokupy: a 9x9 grid solved by naive elimination

    A shallow embedding of [sudokupy.py] (classes [Digit], [DigitGroup] and
    [Grid], the function [row_col_box] and the solve loop of the command-line
    driver) together with the properties stated about them.

    Python objects are mutable and shared: every [Digit] is referenced by the
    grid's flat list and by one row, one column and one box.  The embedding
    keeps one store, the list [digits] of a [Grid]; a reference to a [Digit]
    is its index in that list, a reference to a [DigitGroup] its index in
    [rows], [cols] or [boxes].  Methods take the grid and return the updated
    grid, or the exception they raise. *)

From Stdlib Require Import Ascii.
From stdpp Require Import gmap strings list pretty.

(** ** Python values held in a candidate set

    [Digit.__init__] stores the integers 1..9, [Grid.load] stores the
    one-character string it read, and [Digit.getSolvedValue] returns an
    integer or [None]. *)

Inductive pyval :=
  | PInt (z : Z)
  | PChr (c : ascii)
  | PNone.

#[global] Instance pyval_eq_dec : EqDecision pyval.
Proof. solve_decision. Defined.

#[global] Instance pyval_countable : Countable pyval.
Proof.
  refine (inj_countable'
    (λ x, match x with
          | PInt z => inl z
          | PChr c => inr (inl c)
          | PNone => inr (inr ())
          end)
    (λ y, match y with
          | inl z => PInt z
          | inr (inl c) => PChr c
          | inr (inr _) => PNone
          end) _).
  by intros [].
Defined.

(** ** Exceptions and the result of a call *)

Inductive exn :=
  | Exception (msg : string)
  | ValueError
  | TypeError
  | IndexError.

Inductive result (A : Type) :=
  | Ok (a : A)
  | Raise (e : exn).
Arguments Ok {A} a.
Arguments Raise {A} e.

#[global] Instance result_ret : MRet result := λ A a, Ok a.
#[global] Instance result_bind : MBind result := λ A B f m,
  match m with
  | Ok a => f a
  | Raise e => Raise e
  end.

(** [for x in l: body] over a list that the body does not change. *)
Fixpoint for_each {A S : Type} (l : list A) (body : A → S → result S) (s : S)
  : result S :=
  match l with
  | [] => Ok s
  | x :: rest => s' ← body x s; for_each rest body s'
  end.

(** Python's [int(x)].  On a one-character string it succeeds exactly on the
    ten decimal digits. *)
Definition py_int (x : pyval) : result Z :=
  match x with
  | PInt z => Ok z
  | PChr c =>
      let n := nat_of_ascii c in
      if ((48 <=? n) && (n <=? 57))%nat then Ok (Z.of_nat (n - 48))
      else Raise ValueError
  | PNone => Raise TypeError
  end.

(** [c in s] for a one-character [c]. *)
Fixpoint str_contains (s : string) (c : ascii) : bool :=
  match s with
  | EmptyString => false
  | String a rest => if decide (a = c) then true else str_contains rest c
  end.

Definition UNKNOWN_DIGIT_INPUT : string := "-._ 0".
Definition UNKNOWN_DIGIT_DISPLAY : string := "-".
Definition ROW_TERMINATOR : string :=
  String (ascii_of_nat 10) (String (ascii_of_nat 13) EmptyString).
Definition MAX_ITERATIONS : nat := 20.

(** ** The data model *)

(** [Digit]: [position], the references [row], [col] and [box], and the set
    [v] of possible values.  (The back-reference [grid] is never read.) *)
Record Digit := mkDigit {
  position : nat;
  row : nat;
  col : nat;
  box : nat;
  v : gset pyval
}.

(** [DigitGroup]: the list [digits] of references to its members. *)
Record DigitGroup := mkDigitGroup {
  group_digits : list nat
}.

Record Grid := mkGrid {
  digits : list Digit;
  rows : list DigitGroup;
  cols : list DigitGroup;
  boxes : list DigitGroup;
  loaded : bool
}.

Definition with_v (s : gset pyval) (d : Digit) : Digit :=
  mkDigit (position d) (row d) (col d) (box d) s.

Definition with_digits (ds : list Digit) (g : Grid) : Grid :=
  mkGrid ds (rows g) (cols g) (boxes g) (loaded g).

(** Dereferencing.  A reference that points outside its list, which no grid
    built by [Grid_init] contains, is reported as [IndexError]. *)
Definition get_digit (g : Grid) (i : nat) : result Digit :=
  match digits g !! i with
  | Some d => Ok d
  | None => Raise IndexError
  end.

Definition get_group (gs : list DigitGroup) (r : nat) : result DigitGroup :=
  match gs !! r with
  | Some grp => Ok grp
  | None => Raise IndexError
  end.

(** [self.v = s] on the digit referenced by [i]. *)
Definition set_v (g : Grid) (i : nat) (s : gset pyval) : Grid :=
  with_digits (alter (with_v s) i (digits g)) g.

(** ** class Digit *)

Definition Digit_init (position row col box : nat) (values : list pyval)
  : Digit :=
  mkDigit position row col box (list_to_set values).

Definition default_values : list pyval :=
  [PInt 1; PInt 2; PInt 3; PInt 4; PInt 5; PInt 6; PInt 7; PInt 8; PInt 9].

Definition Digit_solved (d : Digit) : bool :=
  bool_decide (1 = size (v d)).

Definition Digit_getSolvedValue (d : Digit) : result pyval :=
  if Digit_solved d then
    match elements (v d) with
    | x :: _ => n ← py_int x; Ok (PInt n)
    | [] => Raise IndexError
    end
  else Ok PNone.

Definition solved_message : string :=
  "at least one value has to be possible".

(** [Digit.not_possible], the guard and the discard.  [DigitGroup.not_possible]
    calls the method with [recurse] left at its default [False], which is
    exactly this part. *)
Definition Digit_not_possible_default (g : Grid) (i : nat) (value : pyval)
  : result Grid :=
  d ← get_digit g i;
  if Digit_solved d then Raise (Exception solved_message)
  else Ok (set_v g i (v d ∖ {[ value ]})).

(** ** class DigitGroup *)

Definition DigitGroup_not_possible (g : Grid) (grp : DigitGroup)
  (value : pyval) : result Grid :=
  for_each (group_digits grp)
    (λ dig g,
       d ← get_digit g dig;
       if negb (Digit_solved d) then Digit_not_possible_default g dig value
       else Ok g)
    g.

(** ** class Digit, continued *)

Definition Digit_propagate (g : Grid) (i : nat) : result Grid :=
  d ← get_digit g i;
  if Digit_solved d then
    r ← get_group (rows g) (row d);
    value ← Digit_getSolvedValue d;
    g1 ← DigitGroup_not_possible g r value;
    d1 ← get_digit g1 i;
    c ← get_group (cols g1) (col d1);
    value1 ← Digit_getSolvedValue d1;
    g2 ← DigitGroup_not_possible g1 c value1;
    d2 ← get_digit g2 i;
    b ← get_group (boxes g2) (box d2);
    value2 ← Digit_getSolvedValue d2;
    DigitGroup_not_possible g2 b value2
  else Ok g.

Definition Digit_not_possible (g : Grid) (i : nat) (value : pyval)
  (recurse : bool) : result Grid :=
  g' ← Digit_not_possible_default g i value;
  if recurse then Digit_propagate g' i else Ok g'.

Definition Digit_setSolvedValue (g : Grid) (i : nat) (myvalue : pyval)
  (propagate : bool) : result Grid :=
  _ ← get_digit g i;
  let g' := set_v g i (list_to_set [myvalue]) in
  if propagate then Digit_propagate g' i else Ok g'.

(** ** row_col_box and class Grid *)

Definition row_col_box (position : nat) : nat * nat * nat :=
  let r := position / 9 in
  let c := position mod 9 in
  let b := (r / 3) * 3 + c / 3 in
  (r, c, b).

Definition DigitGroup_append (d : nat) (grp : DigitGroup) : DigitGroup :=
  mkDigitGroup (group_digits grp ++ [d]).

(** [Grid.__init__].  The new [Digit] is appended to [self.digits], so its
    reference is the length of that list before the append; the same
    reference is appended to its row, column and box.  [row_col_box] yields
    indices below 9 for the 81 positions, so [self.rows[r]] and the like
    always exist and [alter] is the in-place append. *)
Definition Grid_init_step (g : Grid) (position : nat) : Grid :=
  let '(r, c, b) := row_col_box position in
  let d := Digit_init position r c b default_values in
  let ref := length (digits g) in
  mkGrid (digits g ++ [d])
         (alter (DigitGroup_append ref) r (rows g))
         (alter (DigitGroup_append ref) c (cols g))
         (alter (DigitGroup_append ref) b (boxes g))
         (loaded g).

Definition Grid_init : Grid :=
  foldl Grid_init_step
    (mkGrid [] (replicate 9 (mkDigitGroup [])) (replicate 9 (mkDigitGroup []))
            (replicate 9 (mkDigitGroup [])) false)
    (seq 0 81).

Definition Grid_number_unsolved (g : Grid) : nat :=
  foldl (λ unsolved dig, if negb (Digit_solved dig) then unsolved + 1
                         else unsolved)
        0 (digits g).

Definition Grid_solved (g : Grid) : bool :=
  bool_decide (0 = Grid_number_unsolved g).

(** [for dig in self.digits: dig.propagate()]: the list itself never changes,
    each [Digit] is read in the state the earlier calls left it in. *)
Definition Grid_propagate_all (g : Grid) : result Grid :=
  for_each (seq 0 (length (digits g))) (λ i g, Digit_propagate g i) g.

(** The loop of [Grid.load] over the characters of [puzzle], returning the
    final [counter] with the grid.  The prints under [args.verbose] are
    omitted. *)
Fixpoint load_loop (puzzle : string) (counter : nat) (g : Grid)
  : result (nat * Grid) :=
  match puzzle with
  | EmptyString => Ok (counter, g)
  | String c rest =>
      if 80 <? counter then Ok (counter, g)
      else if str_contains "123456789" c then
        g' ← Digit_setSolvedValue g counter (PChr c) false;
        load_loop rest (counter + 1) g'
      else if str_contains UNKNOWN_DIGIT_INPUT c then
        load_loop rest (counter + 1) g
      else if str_contains ROW_TERMINATOR c then
        if negb (counter mod 9 =? 0) then
          load_loop rest (9 * (counter / 9 + 1)) g
        else load_loop rest counter g
      else load_loop rest counter g
  end.

Definition Grid_load (g : Grid) (puzzle : string) : result Grid :=
  '(_, g') ← load_loop puzzle 0 g;
  Ok (mkGrid (digits g') (rows g') (cols g') (boxes g') true).

(** ** The solve loop of the driver

    [for it in range(1, MAX_ITERATIONS)] with its [break] (solved) and its
    [exit(0)] (stalled); the prints are omitted.  The loop is run over the
    list of values of [it]; the outcome records the [it] it stopped at. *)

Inductive outcome :=
  | Solved (it : nat) (g : Grid)
  | Stalled (it : nat) (g : Grid)
  | Exhausted (g : Grid).

Fixpoint solve_loop (its : list nat) (g : Grid) : result outcome :=
  match its with
  | [] => Ok (Exhausted g)
  | it :: rest =>
      if Grid_solved g then Ok (Solved it g)
      else
        let last_unsolved := Grid_number_unsolved g in
        g' ← Grid_propagate_all g;
        if decide (Grid_number_unsolved g' = last_unsolved)
        then Ok (Stalled it g')
        else solve_loop rest g'
  end.

Definition solve (max_iterations : nat) (g : Grid) : result outcome :=
  solve_loop (seq 1 (max_iterations - 1)) g.

Definition EXAMPLE_GRID : string :=
  let nl := String (ascii_of_nat 10) EmptyString in
  nl +:+ "..67...8." +:+ nl +:+ "..426...." +:+ nl +:+ ".3.8.94.7" +:+ nl
     +:+ "8...92..1" +:+ nl +:+ "..3..8..." +:+ nl +:+ ".7.5..2.." +:+ nl
     +:+ "........." +:+ nl +:+ "...4....5" +:+ nl +:+ "9.2...31." +:+ nl.

(** ** The [tostring] methods *)

Definition NEWLINE : string := String "010"%char "".

(** Python's [str(x)]: the decimal digits of an integer, with a minus sign
    when it is negative, a string as it is, and ["None"]. *)
Definition py_str (x : pyval) : string :=
  match x with
  | PInt z => pretty z
  | PChr c => String c ""
  | PNone => "None"
  end.

(** [sep.join(l)]. *)
Fixpoint str_join (sep : string) (l : list string) : string :=
  match l with
  | [] => ""
  | x :: rest =>
      match rest with
      | [] => x
      | _ => x +:+ sep +:+ str_join sep rest
      end
  end.

Section tostring.

(** The order in which the interpreter enumerates the elements of a set.
    Nothing is assumed about it. *)
Variable set_iteration : gset pyval → list pyval.

Definition Digit_tostring (d : Digit) (printAllPossibleValues : bool)
  : result string :=
  if Digit_solved d then
    value ← Digit_getSolvedValue d; Ok (py_str value)
  else if printAllPossibleValues then
    let dig := py_str <$> set_iteration (v d) in
    Ok ("[" +:+ str_join "," dig +:+ "]")
  else Ok UNKNOWN_DIGIT_DISPLAY.

Definition DigitGroup_tostring (g : Grid) (grp : DigitGroup)
  (printAllPossibleValues : bool) : result string :=
  st ← for_each (group_digits grp)
          (λ dig st,
             d ← get_digit g dig;
             t ← Digit_tostring d printAllPossibleValues;
             let st := st +:+ t in
             Ok (if printAllPossibleValues then st +:+ NEWLINE else st))
          "";
  Ok (if printAllPossibleValues then st +:+ NEWLINE else st).

(** [Grid.tostring]: the body of its loop, on the pair of [counter] and [s],
    and the method. *)
Definition Grid_tostring_body (pretty : bool) (d : Digit)
  (state : nat * string) : result (nat * string) :=
  let '(counter, s) := state in
  t ← Digit_tostring d false;
  let s := s +:+ t in
  if pretty then
    let counter := counter + 1 in
    Ok (counter, if counter mod 9 =? 0 then s +:+ NEWLINE else s)
  else Ok (counter, s).

Definition Grid_tostring (g : Grid) (pretty : bool) : result string :=
  '(_, s) ← for_each (digits g) (Grid_tostring_body pretty) (0, "");
  Ok s.

End tostring.

(** * Vocabulary of the properties *)

(** [narrows d d']: [d'] is [d] after any number of eliminations. *)
Record narrows (d d' : Digit) : Prop := mk_narrows {
  narrows_position : position d' = position d;
  narrows_row : row d' = row d;
  narrows_col : col d' = col d;
  narrows_box : box d' = box d;
  narrows_subseteq : v d' ⊆ v d;
  narrows_solved : Digit_solved d = true → v d' = v d;
  narrows_nonempty : v d ≠ ∅ → v d' ≠ ∅
}.

(** The same, for every digit of a grid; the groups are left as they are. *)
Record grid_narrows (g g' : Grid) : Prop := mk_grid_narrows {
  gn_rows : rows g' = rows g;
  gn_cols : cols g' = cols g;
  gn_boxes : boxes g' = boxes g;
  gn_loaded : loaded g' = loaded g;
  gn_length : length (digits g') = length (digits g);
  gn_digits : ∀ i d, digits g !! i = Some d →
              ∃ d', digits g' !! i = Some d' ∧ narrows d d'
}.

(** The number of digits of a list that are not solved. *)
Definition count_unsolved (ds : list Digit) : nat :=
  length (filter (λ d, Digit_solved d = false) ds).

(** What [DigitGroup.not_possible] does to one member, and to the store. *)
Definition discard_unsolved (value : pyval) (d : Digit) : Digit :=
  if Digit_solved d then d else with_v (v d ∖ {[ value ]}) d.

Definition eliminate (members : list nat) (value : pyval) (ds : list Digit)
  : list Digit :=
  imap (λ i d, if decide (i ∈ members) then discard_unsolved value d else d) ds.

#[global] Instance DigitGroup_eq_dec : EqDecision DigitGroup.
Proof. solve_decision. Defined.

(** The members of the group referenced by [r]. *)
Definition members (gs : list DigitGroup) (r : nat) : list nat :=
  default [] (group_digits <$> gs !! r).

(** The fields of a digit that are fixed at construction. *)
Definition digit_refs (d : Digit) : nat * nat * nat * nat :=
  (position d, row d, col d, box d).

(** A grid state of the program: the 81 digits and 27 groups laid out by the
    constructor (nothing but the candidate sets and [loaded] ever changes
    after construction), with any candidate sets. *)
Record well_formed (g : Grid) : Prop := mk_well_formed {
  wf_digits : digit_refs <$> digits g = digit_refs <$> digits Grid_init;
  wf_rows : rows g = rows Grid_init;
  wf_cols : cols g = cols Grid_init;
  wf_boxes : boxes g = boxes Grid_init
}.

(** The box of position [p], as [row_col_box] computes it. *)
Definition box_of (p : nat) : nat := p / 9 / 3 * 3 + p mod 9 / 3.

(** The three groups of a digit exist, contain it, and hold valid references. *)
Record groups_of (g : Grid) (i : nat) (d : Digit) (r c b : DigitGroup)
  : Prop := mk_groups_of {
  go_row : rows g !! row d = Some r;
  go_col : cols g !! col d = Some c;
  go_box : boxes g !! box d = Some b;
  go_row_in : i ∈ group_digits r;
  go_col_in : i ∈ group_digits c;
  go_box_in : i ∈ group_digits b;
  go_row_range : Forall (λ j, j < length (digits g)) (group_digits r);
  go_col_range : Forall (λ j, j < length (digits g)) (group_digits c);
  go_box_range : Forall (λ j, j < length (digits g)) (group_digits b)
}.

(** The store after the three passes of [Digit.propagate]. *)
Definition propagated (r c b : DigitGroup) (value : pyval) (ds : list Digit)
  : list Digit :=
  eliminate (group_digits b) value
    (eliminate (group_digits c) value
       (eliminate (group_digits r) value ds)).

(** One digit through the three passes of [propagate]. *)
Definition step (hit : bool) (value : pyval) (d : Digit) : Digit :=
  if hit then discard_unsolved value d else d.

(** Two digits share a row, a column or a box. *)
Definition peers (d dp : Digit) : Prop :=
  row dp = row d ∨ col dp = col d ∨ box dp = box d.

(** [int(x)] returns. *)
Definition py_int_ok (x : pyval) : bool :=
  match py_int x with
  | Ok _ => true
  | Raise _ => false
  end.

(** Every candidate of every digit is a value [int] accepts: an integer or a
    digit character. *)
Definition numeric (g : Grid) : Prop :=
  Forall (λ d, set_Forall (λ x, py_int_ok x = true) (v d)) (digits g).

(** Every digit has at least one candidate. *)
Definition nonempty (g : Grid) : Prop :=
  ∀ i d, digits g !! i = Some d → 1 ≤ size (v d).

(** Where a row terminator sends the counter. *)
Definition next_row (counter : nat) : nat :=
  if negb (counter mod 9 =? 0) then 9 * (counter / 9 + 1) else counter.

(** The value of a call that returns. *)
Definition unwrap {A : Type} (dflt : A) (r : result A) : A :=
  match r with
  | Ok a => a
  | Raise _ => dflt
  end.

(** The digit behind reference [i]. *)
Definition digit_at (g : Grid) (i : nat) : Digit :=
  default (mkDigit 0 0 0 0 ∅) (digits g !! i).

(** A fresh grid with [puzzle] loaded. *)
Definition load_fresh (puzzle : string) : Grid :=
  unwrap Grid_init (Grid_load Grid_init puzzle).

(** A grid to try the theorems on: the example puzzle of the driver, loaded
    into a fresh grid. *)
Definition example_loaded : Grid := load_fresh EXAMPLE_GRID.

(** A grid in which two digits of one row are solved to the same value. *)
Definition duplicate_loaded : Grid := load_fresh "11".

(** The characters that take a slot, and how many of them a puzzle has. *)
Definition recognized (c : ascii) : bool :=
  str_contains "123456789" c || str_contains UNKNOWN_DIGIT_INPUT c.

Fixpoint count_recognized (puzzle : string) : nat :=
  match puzzle with
  | EmptyString => 0
  | String c rest => (if recognized c then 1 else 0) + count_recognized rest
  end.

(** The counter [load] ends with. *)
Definition load_counter (g : Grid) (puzzle : string) : option nat :=
  match load_loop puzzle 0 g with
  | Ok (n, _) => Some n
  | Raise _ => None
  end.

(** What stopped the loop, and at which value of [it]. *)
Definition stopped_within (lo hi : nat) (o : outcome) : Prop :=
  match o with
  | Solved it _ | Stalled it _ => lo ≤ it ≤ hi
  | Exhausted _ => False
  end.

(** The loop used up its range of iterations. *)
Definition ran_out (o : outcome) : Prop :=
  match o with
  | Exhausted _ => True
  | _ => False
  end.

#[global] Instance exn_eq_dec : EqDecision exn.
Proof. solve_decision. Defined.

#[global] Instance result_eq_dec {A : Type} `{EqDecision A} :
  EqDecision (result A).
Proof. solve_decision. Defined.

(** The value a digit is solved to, if it is solved. *)
Definition solved_value (g : Grid) (i : nat) : option Z :=
  match digits g !! i with
  | Some d =>
      if Digit_solved d then
        match Digit_getSolvedValue d with
        | Ok (PInt n) => Some n
        | _ => None
        end
      else None
  | None => None
  end.

(** The 27 groups of a grid. *)
Definition groups (g : Grid) : list DigitGroup :=
  rows g ++ cols g ++ boxes g.






#[global] Instance peers_dec (d dp : Digit) : Decision (peers d dp).
Proof. unfold peers. apply _. Defined.

(** The grid a run of the solve loop ends with. *)
Definition outcome_grid (o : outcome) : Grid :=
  match o with
  | Solved _ g | Stalled _ g | Exhausted g => g
  end.

(** No solved digit has its value among the candidates of an unsolved digit
    of its row, column or box: there is nothing left to propagate. *)
Definition fully_propagated (g : Grid) : Prop :=
  ∀ c d value p dp,
    digits g !! c = Some d → Digit_solved d = true →
    Digit_getSolvedValue d = Ok value →
    digits g !! p = Some dp → peers d dp → Digit_solved dp = false →
    value ∉ v dp.

(** The puzzle holds one of the digits 1-9. *)
Fixpoint has_known_digit (puzzle : string) : bool :=
  match puzzle with
  | EmptyString => false
  | String c rest => str_contains "123456789" c || has_known_digit rest
  end.

(** A fresh grid with the single given 5 in its first cell, after one pass. *)
Definition single_given : Grid :=
  unwrap Grid_init (Grid_propagate_all (load_fresh "5")).

(** What [tostring] prints for a digit solved to a value from 1 to 9 or not
    solved: the character of the value, or the unknown marker. *)
Definition digit_char (n : Z) : ascii := ascii_of_nat (48 + Z.to_nat n).

Definition cell_char (d : Digit) : ascii :=
  if Digit_solved d then
    match Digit_getSolvedValue d with
    | Ok (PInt n) => digit_char n
    | _ => "-"%char
    end
  else "-"%char.

(** Every solved digit is solved to a value from 1 to 9. *)
Definition printable_digit (d : Digit) : bool :=
  negb (Digit_solved d) ||
  match Digit_getSolvedValue d with
  | Ok (PInt n) => bool_decide (1 ≤ n ≤ 9)%Z
  | _ => false
  end.

Definition printable (g : Grid) : Prop :=
  Forall (λ d, printable_digit d = true) (digits g).

(** The characters of the digits, with a newline after every ninth when
    [pretty]; [counter] digits have been printed before. *)
Fixpoint render (pretty : bool) (counter : nat) (ds : list Digit) : string :=
  match ds with
  | [] => ""
  | d :: rest =>
      String (cell_char d)
        (if pretty && ((counter + 1) mod 9 =? 0)
         then String "010"%char (render pretty (counter + 1) rest)
         else render pretty (counter + 1) rest)
  end.

(** [int(x)] returns a value from 1 to 9; and every candidate of every digit
    is such an [x]. *)
Definition value_ok (x : pyval) : bool :=
  match py_int x with
  | Ok n => bool_decide (1 ≤ n ≤ 9)%Z
  | Raise _ => false
  end.

Definition in_range (g : Grid) : Prop :=
  Forall (λ d, set_Forall (λ x, value_ok x = true) (v d)) (digits g).

(** The solve loop stopped on a stall. *)
Definition is_stalled (o : outcome) : bool :=
  match o with
  | Stalled _ _ => true
  | _ => false
  end.

(** * Properties *)

(** ** The result monad and [for_each] *)

Lemma bind_Ok {A B} (m : result A) (f : A → result B) (b : B) :
  m ≫= f = Ok b ↔ ∃ a, m = Ok a ∧ f a = Ok b.
Proof.
  destruct m as [a|e]; simpl; split.
  - intros Hf. by exists a.
  - by intros (a' & [= <-] & Hf).
  - discriminate.
  - by intros (a' & [=] & _).
Qed.

Lemma for_each_app {A S} (l k : list A) (body : A → S → result S) (s : S) :
  for_each (l ++ k) body s = for_each l body s ≫= for_each k body.
Proof.
  revert s. induction l as [|x l IH]; intros s; simpl; [done|].
  destruct (body x s) as [s'|e]; simpl; [apply IH|done].
Qed.

(** A reflexive and transitive relation that every call of the body respects
    relates the state before the loop to the state after it. *)
Lemma for_each_rel {A S} (R : S → S → Prop) `{!Reflexive R, !Transitive R}
    (l : list A) (body : A → S → result S) (s s' : S) :
  (∀ x t t', x ∈ l → body x t = Ok t' → R t t') →
  for_each l body s = Ok s' → R s s'.
Proof.
  revert s. induction l as [|x l IH]; intros s Hbody; simpl.
  - by intros [= <-].
  - intros (t & Hx & Hl)%bind_Ok. etrans.
    + eapply Hbody; [left|done].
    + apply IH; [|done]. intros y u u' Hy. apply Hbody. by right.
Qed.

(** A loop whose body returns on every state satisfying an invariant it
    preserves returns, in a state satisfying the invariant. *)
Lemma for_each_total {A S} (P : S → Prop) (l : list A)
    (body : A → S → result S) (s : S) :
  (∀ x t, x ∈ l → P t → ∃ t', body x t = Ok t' ∧ P t') →
  P s → ∃ s', for_each l body s = Ok s' ∧ P s'.
Proof.
  revert s. induction l as [|x l IH]; intros s Hbody Hs; simpl.
  - by exists s.
  - destruct (Hbody x s) as (t & -> & Ht); [left|done|]. simpl.
    apply IH; [|done]. intros y u Hy. apply Hbody. by right.
Qed.

(** A loop raises only what its body raises. *)
Lemma for_each_raise {A S} (l : list A) (body : A → S → result S) (s : S)
    (e : exn) :
  for_each l body s = Raise e → ∃ x t, x ∈ l ∧ body x t = Raise e.
Proof.
  revert s. induction l as [|x l IH]; intros s; simpl; [done|].
  destruct (body x s) as [t|e'] eqn:Hx; simpl.
  - intros (y & u & Hy & Hu)%IH. exists y, u. split; [by right|done].
  - intros [= ->]. exists x, s. split; [left|done].
Qed.

(** ** Digits *)

Lemma Digit_solved_size d : Digit_solved d = true ↔ size (v d) = 1.
Proof. unfold Digit_solved. rewrite bool_decide_eq_true. naive_solver. Qed.

Lemma Digit_unsolved_size d : Digit_solved d = false ↔ size (v d) ≠ 1.
Proof. unfold Digit_solved. rewrite bool_decide_eq_false. naive_solver. Qed.

Lemma Digit_solved_singleton d :
  Digit_solved d = true ↔ ∃ x, v d = {[ x ]}.
Proof.
  rewrite Digit_solved_size. split.
  - intros (x & Hx)%size_1_elem_of. exists x. by apply leibniz_equiv.
  - intros (x & ->). apply size_singleton.
Qed.

Lemma Digit_getSolvedValue_singleton d x :
  v d = {[ x ]} →
  Digit_getSolvedValue d = n ← py_int x; Ok (PInt n).
Proof.
  intros Hx. unfold Digit_getSolvedValue.
  assert (Digit_solved d = true) as -> by (apply Digit_solved_singleton; eauto).
  by rewrite Hx, elements_singleton.
Qed.

Lemma with_v_id d : with_v (v d) d = d.
Proof. by destruct d. Qed.

Lemma with_digits_id g : with_digits (digits g) g = g.
Proof. by destruct g. Qed.

Lemma get_digit_Ok g i d : get_digit g i = Ok d ↔ digits g !! i = Some d.
Proof. unfold get_digit. destruct (digits g !! i); naive_solver. Qed.

Lemma get_digit_lookup g i d : digits g !! i = Some d → get_digit g i = Ok d.
Proof. apply get_digit_Ok. Qed.

Lemma get_group_lookup gs r grp : gs !! r = Some grp → get_group gs r = Ok grp.
Proof. unfold get_group. by intros ->. Qed.

Lemma get_group_Ok gs r grp : get_group gs r = Ok grp ↔ gs !! r = Some grp.
Proof. unfold get_group. destruct (gs !! r); naive_solver. Qed.

Lemma set_v_same g i d : digits g !! i = Some d → set_v g i (v d) = g.
Proof.
  intros Hd. unfold set_v. rewrite <- (with_digits_id g) at 3.
  unfold with_digits. f_equal.
  apply list_eq. intros j. destruct (decide (i = j)) as [<-|Hne].
  - by rewrite list_lookup_alter_eq, Hd; simpl; rewrite with_v_id.
  - by rewrite list_lookup_alter_ne.
Qed.

(** What [discard] leaves of the candidates of a digit that is not solved. *)
Lemma discard_nonempty (s : gset pyval) (x : pyval) :
  size s ≠ 1 → s ≠ ∅ → s ∖ {[ x ]} ≠ ∅.
Proof.
  intros H1 Hne Hempty.
  assert (s ⊆ {[ x ]}) as Hsub.
  { intros y Hy. apply elem_of_singleton.
    destruct (decide (y = x)) as [|Hyx]; [done|].
    assert (y ∈ s ∖ {[ x ]}) as Hin.
    { by rewrite elem_of_difference, elem_of_singleton. }
    rewrite Hempty in Hin. by apply not_elem_of_empty in Hin. }
  apply subseteq_size in Hsub. rewrite size_singleton in Hsub.
  assert (size s ≠ 0).
  { rewrite size_non_empty_iff. by intros ?%leibniz_equiv. }
  lia.
Qed.

(** ** What elimination may do to a digit

    [narrows d d']: [d'] is [d] after any number of eliminations.  The
    references are those of [d], no candidate is gained, a solved digit keeps
    its candidate and a non-empty candidate set stays non-empty. *)

#[global] Instance narrows_refl : Reflexive narrows.
Proof. intros d. by split. Qed.

#[global] Instance narrows_trans : Transitive narrows.
Proof.
  intros d1 d2 d3 H12 H23. split.
  - by rewrite (narrows_position _ _ H23), (narrows_position _ _ H12).
  - by rewrite (narrows_row _ _ H23), (narrows_row _ _ H12).
  - by rewrite (narrows_col _ _ H23), (narrows_col _ _ H12).
  - by rewrite (narrows_box _ _ H23), (narrows_box _ _ H12).
  - etrans; [apply H23|apply H12].
  - intros Hs. assert (v d2 = v d1) as H21 by by apply H12.
    assert (Digit_solved d2 = true) as Hs2.
    { apply Digit_solved_size. rewrite H21. by apply Digit_solved_size. }
    rewrite <- H21. by apply H23.
  - intros Hne. by apply H23, H12.
Qed.

Lemma narrows_keeps_solved d d' :
  narrows d d' → Digit_solved d = true → Digit_solved d' = true.
Proof.
  intros Hn Hs. apply Digit_solved_size.
  rewrite (narrows_solved _ _ Hn Hs). by apply Digit_solved_size.
Qed.

Lemma narrows_discard d x :
  Digit_solved d = false → narrows d (with_v (v d ∖ {[ x ]}) d).
Proof.
  intros Hu. split; simpl; try done.
  - apply subseteq_difference_l. done.
  - congruence.
  - intros Hne. apply discard_nonempty; [|done]. by apply Digit_unsolved_size.
Qed.

#[global] Instance grid_narrows_refl : Reflexive grid_narrows.
Proof. intros g. split; try done. intros i d Hd. by exists d. Qed.

#[global] Instance grid_narrows_trans : Transitive grid_narrows.
Proof.
  intros g1 g2 g3 [] []. split; try congruence.
  intros i d1 Hd1.
  destruct (gn_digits0 i d1 Hd1) as (d2 & Hd2 & H12).
  destruct (gn_digits1 i d2 Hd2) as (d3 & Hd3 & H23).
  exists d3. split; [done|]. by etrans.
Qed.

Lemma set_v_lookup g i j s :
  digits (set_v g i s) !! j =
  (if decide (i = j) then with_v s else id) <$> digits g !! j.
Proof.
  simpl. case_decide as Hij.
  - subst j. apply list_lookup_alter_eq.
  - rewrite list_lookup_alter_ne by done. by destruct (digits g !! j).
Qed.

Lemma set_v_narrows g i d s :
  digits g !! i = Some d → narrows d (with_v s d) →
  grid_narrows g (set_v g i s).
Proof.
  intros Hd Hn. split; try done.
  - simpl. apply length_alter.
  - intros j dj Hj. rewrite set_v_lookup, Hj. simpl.
    case_decide as Hij; [|by exists dj].
    subst j. assert (dj = d) as -> by congruence. eauto.
Qed.

Lemma Digit_not_possible_default_narrows g i value g' :
  Digit_not_possible_default g i value = Ok g' → grid_narrows g g'.
Proof.
  unfold Digit_not_possible_default.
  intros (d & Hd%get_digit_Ok & Hbody)%bind_Ok.
  destruct (Digit_solved d) eqn:Hs; [done|].
  injection Hbody as <-. eapply set_v_narrows; [done|].
  by apply narrows_discard.
Qed.

Lemma DigitGroup_not_possible_narrows g grp value g' :
  DigitGroup_not_possible g grp value = Ok g' → grid_narrows g g'.
Proof.
  unfold DigitGroup_not_possible. apply for_each_rel; try apply _.
  intros dig t t' _ (d & _ & Hbody)%bind_Ok.
  destruct (Digit_solved d); simpl in Hbody.
  - by injection Hbody as <-.
  - by eapply Digit_not_possible_default_narrows.
Qed.

Lemma Digit_propagate_narrows g i g' :
  Digit_propagate g i = Ok g' → grid_narrows g g'.
Proof.
  unfold Digit_propagate. intros (d & _ & Hbody)%bind_Ok.
  destruct (Digit_solved d); [|by injection Hbody as <-].
  apply bind_Ok in Hbody as (r & _ & Hbody).
  apply bind_Ok in Hbody as (value & _ & Hbody).
  apply bind_Ok in Hbody as (g1 & H1%DigitGroup_not_possible_narrows & Hbody).
  apply bind_Ok in Hbody as (d1 & _ & Hbody).
  apply bind_Ok in Hbody as (c & _ & Hbody).
  apply bind_Ok in Hbody as (value1 & _ & Hbody).
  apply bind_Ok in Hbody as (g2 & H2%DigitGroup_not_possible_narrows & Hbody).
  apply bind_Ok in Hbody as (d2 & _ & Hbody).
  apply bind_Ok in Hbody as (b & _ & Hbody).
  apply bind_Ok in Hbody as (value2 & _ & H3%DigitGroup_not_possible_narrows).
  by repeat (etrans; [eassumption|]).
Qed.

Lemma Grid_propagate_all_narrows g g' :
  Grid_propagate_all g = Ok g' → grid_narrows g g'.
Proof.
  unfold Grid_propagate_all. apply for_each_rel; try apply _.
  intros i t t' _. apply Digit_propagate_narrows.
Qed.

(** ** Counting the unsolved digits *)

Lemma number_unsolved_foldl (ds : list Digit) (n : nat) :
  foldl (λ unsolved dig, if negb (Digit_solved dig) then unsolved + 1
                         else unsolved) n ds
  = n + count_unsolved ds.
Proof.
  unfold count_unsolved. revert n.
  induction ds as [|d ds IH]; intros n; simpl; [lia|].
  rewrite IH. destruct (Digit_solved d) eqn:Hs; simpl.
  - rewrite filter_cons_False by (by rewrite Hs). lia.
  - rewrite filter_cons_True by done. simpl. lia.
Qed.

Lemma Grid_number_unsolved_count g :
  Grid_number_unsolved g = count_unsolved (digits g).
Proof. unfold Grid_number_unsolved. by rewrite number_unsolved_foldl. Qed.

Lemma count_unsolved_le (ds ds' : list Digit) :
  Forall2 (λ d d', Digit_solved d = true → Digit_solved d' = true) ds ds' →
  count_unsolved ds' ≤ count_unsolved ds.
Proof.
  unfold count_unsolved. induction 1 as [|d d' ds ds' Hd _ IH]; [done|].
  destruct (Digit_solved d) eqn:Hs.
  - rewrite (filter_cons_False _ d) by (by rewrite Hs).
    rewrite (filter_cons_False _ d') by (by rewrite Hd). done.
  - rewrite (filter_cons_True _ d) by done.
    destruct (Digit_solved d') eqn:Hs'.
    + rewrite (filter_cons_False _ d') by (by rewrite Hs'). simpl. lia.
    + rewrite (filter_cons_True _ d') by done. simpl. lia.
Qed.

Lemma count_unsolved_bound (ds : list Digit) : count_unsolved ds ≤ length ds.
Proof. apply length_filter. Qed.

Lemma grid_narrows_Forall2 g g' :
  grid_narrows g g' → Forall2 narrows (digits g) (digits g').
Proof.
  intros Hn. apply Forall2_same_length_lookup_2.
  - symmetry. apply Hn.
  - intros i d d' Hd Hd'.
    destruct (gn_digits _ _ Hn i d Hd) as (d'' & Hd'' & Hdd). congruence.
Qed.

Lemma grid_narrows_unsolved g g' :
  grid_narrows g g' → Grid_number_unsolved g' ≤ Grid_number_unsolved g.
Proof.
  intros Hn%grid_narrows_Forall2. rewrite !Grid_number_unsolved_count.
  apply count_unsolved_le. eapply Forall2_impl; [done|].
  intros d d'. apply narrows_keeps_solved.
Qed.

(** ** The effect of [DigitGroup.not_possible] in closed form *)

Lemma eliminate_lookup members value ds i :
  eliminate members value ds !! i =
  (if decide (i ∈ members) then discard_unsolved value else id) <$> ds !! i.
Proof.
  unfold eliminate. rewrite list_lookup_imap.
  destruct (ds !! i); simpl; [|done]. by case_decide.
Qed.

Lemma length_eliminate members value ds :
  length (eliminate members value ds) = length ds.
Proof. apply length_imap. Qed.

Lemma discard_unsolved_solved value d :
  Digit_solved d = true → discard_unsolved value d = d.
Proof. unfold discard_unsolved. by intros ->. Qed.

Lemma discard_unsolved_unsolved value d :
  Digit_solved d = false →
  discard_unsolved value d = with_v (v d ∖ {[ value ]}) d.
Proof. unfold discard_unsolved. by intros ->. Qed.

Lemma discard_unsolved_idemp value d :
  discard_unsolved value (discard_unsolved value d) = discard_unsolved value d.
Proof.
  destruct (Digit_solved d) eqn:Hs.
  - by rewrite !(discard_unsolved_solved value d Hs).
  - rewrite (discard_unsolved_unsolved value d Hs).
    unfold discard_unsolved.
    destruct (Digit_solved (with_v _ d)); [done|]. unfold with_v. simpl.
    f_equal. apply set_eq. intros x. rewrite !elem_of_difference. tauto.
Qed.

Lemma discard_unsolved_narrows value d : narrows d (discard_unsolved value d).
Proof.
  destruct (Digit_solved d) eqn:Hs.
  - by rewrite discard_unsolved_solved.
  - rewrite discard_unsolved_unsolved by done. by apply narrows_discard.
Qed.

Lemma discard_unsolved_not_elem value d :
  Digit_solved d = false → value ∉ v (discard_unsolved value d).
Proof.
  intros Hs. rewrite discard_unsolved_unsolved by done. simpl.
  rewrite elem_of_difference, elem_of_singleton. tauto.
Qed.

Lemma eliminate_lookup_solved members value ds i d :
  ds !! i = Some d → Digit_solved d = true →
  eliminate members value ds !! i = Some d.
Proof.
  intros Hd Hs. rewrite eliminate_lookup, Hd. simpl.
  case_decide; [|done]. by rewrite discard_unsolved_solved.
Qed.

Lemma eliminate_nil value ds : eliminate [] value ds = ds.
Proof.
  apply list_eq. intros i. rewrite eliminate_lookup.
  rewrite decide_False by apply not_elem_of_nil. by destruct (ds !! i).
Qed.

Lemma eliminate_cons_solved m members value ds d :
  ds !! m = Some d → Digit_solved d = true →
  eliminate (m :: members) value ds = eliminate members value ds.
Proof.
  intros Hd Hs. apply list_eq. intros i. rewrite !eliminate_lookup.
  destruct (decide (i = m)) as [->|Hne].
  - rewrite Hd. simpl. rewrite decide_True by left.
    rewrite discard_unsolved_solved by done.
    case_decide; simpl; [by rewrite discard_unsolved_solved|done].
  - destruct (decide (i ∈ members)).
    + by rewrite decide_True by (by right).
    + rewrite decide_False; [done|]. by intros [?|?]%elem_of_cons.
Qed.

Lemma eliminate_cons_unsolved m members value ds d :
  ds !! m = Some d → Digit_solved d = false →
  eliminate members value (alter (with_v (v d ∖ {[ value ]})) m ds)
  = eliminate (m :: members) value ds.
Proof.
  intros Hd Hs. apply list_eq. intros i. rewrite !eliminate_lookup.
  destruct (decide (i = m)) as [->|Hne].
  - rewrite list_lookup_alter_eq, Hd. simpl.
    rewrite (decide_True (P := m ∈ m :: members)) by left.
    rewrite <- (discard_unsolved_unsolved value d Hs).
    case_decide; simpl; [by rewrite discard_unsolved_idemp|done].
  - rewrite list_lookup_alter_ne by done.
    destruct (decide (i ∈ members)).
    + by rewrite decide_True by (by right).
    + rewrite decide_False; [done|]. by intros [?|?]%elem_of_cons.
Qed.

Lemma DigitGroup_not_possible_spec g grp value :
  Forall (λ i, i < length (digits g)) (group_digits grp) →
  DigitGroup_not_possible g grp value
  = Ok (with_digits (eliminate (group_digits grp) value (digits g)) g).
Proof.
  unfold DigitGroup_not_possible. generalize (group_digits grp) as members.
  intros members. revert g.
  induction members as [|m members IH]; intros g Hrange; simpl.
  - by rewrite eliminate_nil, with_digits_id.
  - apply Forall_cons in Hrange as [Hm Hrange].
    apply lookup_lt_is_Some in Hm as [d Hd].
    rewrite (get_digit_lookup g m d Hd). simpl.
    destruct (Digit_solved d) eqn:Hs; simpl.
    + rewrite IH by done. by erewrite eliminate_cons_solved.
    + unfold Digit_not_possible_default.
      rewrite (get_digit_lookup g m d Hd). simpl.
      rewrite Hs. simpl. rewrite IH.
      * simpl. by erewrite eliminate_cons_unsolved.
      * simpl. by rewrite length_alter.
Qed.

(** ** The structure built by [Grid.__init__] *)

Lemma row_col_box_eq p : row_col_box p = (p / 9, p mod 9, box_of p).
Proof. done. Qed.

Lemma Grid_init_length : length (digits Grid_init) = 81.
Proof. by vm_compute. Qed.

Lemma Grid_init_refs p :
  p < 81 →
  digit_refs <$> digits Grid_init !! p = Some (p, p / 9, p mod 9, box_of p).
Proof.
  assert (Forall (λ p, digit_refs <$> digits Grid_init !! p
                       = Some (p, p / 9, p mod 9, box_of p)) (seq 0 81)) as H.
  { apply (bool_decide_unpack _). by vm_compute. }
  intros Hp. rewrite Forall_seq in H. apply H. lia.
Qed.

Lemma Grid_init_groups p :
  p < 81 →
  is_Some (rows Grid_init !! (p / 9)) ∧ p ∈ members (rows Grid_init) (p / 9) ∧
  is_Some (cols Grid_init !! (p mod 9)) ∧
  p ∈ members (cols Grid_init) (p mod 9) ∧
  is_Some (boxes Grid_init !! box_of p) ∧
  p ∈ members (boxes Grid_init) (box_of p).
Proof.
  assert (Forall (λ p,
    is_Some (rows Grid_init !! (p / 9)) ∧
    p ∈ members (rows Grid_init) (p / 9) ∧
    is_Some (cols Grid_init !! (p mod 9)) ∧
    p ∈ members (cols Grid_init) (p mod 9) ∧
    is_Some (boxes Grid_init !! box_of p) ∧
    p ∈ members (boxes Grid_init) (box_of p)) (seq 0 81)) as H.
  { apply (bool_decide_unpack _). by vm_compute. }
  intros Hp. rewrite Forall_seq in H. apply H. lia.
Qed.

Lemma Grid_init_members_range :
  Forall (λ grp, Forall (λ i, i < 81) (group_digits grp))
         (rows Grid_init ++ cols Grid_init ++ boxes Grid_init).
Proof. apply (bool_decide_unpack _). by vm_compute. Qed.

(** Membership and back-reference agree: the members of a row are the digits
    that reference it, and likewise for columns and boxes. *)
Lemma Grid_init_members_back :
  Forall (λ grp, Forall (λ i, rows Grid_init !! (i / 9) = Some grp)
                        (group_digits grp)) (rows Grid_init) ∧
  Forall (λ grp, Forall (λ i, cols Grid_init !! (i mod 9) = Some grp)
                        (group_digits grp)) (cols Grid_init) ∧
  Forall (λ grp, Forall (λ i, boxes Grid_init !! box_of i = Some grp)
                        (group_digits grp)) (boxes Grid_init).
Proof. apply (bool_decide_unpack _). by vm_compute. Qed.

Lemma well_formed_init : well_formed Grid_init.
Proof. split; reflexivity. Qed.

Lemma well_formed_length g : well_formed g → length (digits g) = 81.
Proof.
  intros Hwf. pose proof (wf_digits g Hwf) as Hd.
  apply (f_equal length) in Hd.
  by rewrite !length_fmap, Grid_init_length in Hd.
Qed.

Lemma well_formed_refs g i d :
  well_formed g → digits g !! i = Some d →
  i < 81 ∧ position d = i ∧ row d = i / 9 ∧ col d = i mod 9 ∧
  box d = box_of i.
Proof.
  intros Hwf Hd.
  assert (i < 81) as Hi.
  { rewrite <- (well_formed_length g Hwf). by eapply lookup_lt_Some. }
  split; [done|]. pose proof (wf_digits g Hwf) as Hds.
  apply (f_equal (λ l, l !! i)) in Hds.
  rewrite !list_lookup_fmap, Hd, Grid_init_refs in Hds by done.
  by injection Hds as -> -> -> ->.
Qed.

Lemma well_formed_lookup g i :
  well_formed g → i < 81 → is_Some (digits g !! i).
Proof.
  intros Hwf Hi. apply lookup_lt_is_Some. by rewrite well_formed_length.
Qed.

Lemma members_lookup gs r grp :
  gs !! r = Some grp → members gs r = group_digits grp.
Proof. unfold members. by intros ->. Qed.

Lemma well_formed_groups g i d :
  well_formed g → digits g !! i = Some d →
  ∃ r c b, groups_of g i d r c b.
Proof.
  intros Hwf Hd.
  destruct (well_formed_refs g i d Hwf Hd) as (Hi & _ & Hr & Hc & Hb).
  pose proof (well_formed_length g Hwf) as Hlen.
  destruct Hwf as [_ Hrows Hcols Hboxes].
  destruct (Grid_init_groups i Hi)
    as ([r Hrow] & Hrin & [c Hcol] & Hcin & [b Hbox] & Hbin).
  pose proof Grid_init_members_range as Hrange.
  rewrite !Forall_app, !Forall_forall in Hrange.
  destruct Hrange as (Hrr & Hcr & Hbr).
  exists r, c, b. split.
  - by rewrite Hrows, Hr.
  - by rewrite Hcols, Hc.
  - by rewrite Hboxes, Hb.
  - by rewrite <- (members_lookup _ _ _ Hrow).
  - by rewrite <- (members_lookup _ _ _ Hcol).
  - by rewrite <- (members_lookup _ _ _ Hbox).
  - rewrite Hlen. eapply Hrr, list_elem_of_lookup_2, Hrow.
  - rewrite Hlen. eapply Hcr, list_elem_of_lookup_2, Hcol.
  - rewrite Hlen. eapply Hbr, list_elem_of_lookup_2, Hbox.
Qed.

Lemma grid_narrows_refs g g' :
  grid_narrows g g' → digit_refs <$> digits g' = digit_refs <$> digits g.
Proof.
  intros Hn. apply list_eq. intros i. rewrite !list_lookup_fmap.
  destruct (digits g !! i) as [d|] eqn:Hd.
  - destruct (gn_digits _ _ Hn i d Hd) as (d' & -> & Hdd). simpl.
    unfold digit_refs.
    by rewrite (narrows_position _ _ Hdd), (narrows_row _ _ Hdd),
      (narrows_col _ _ Hdd), (narrows_box _ _ Hdd).
  - apply lookup_ge_None in Hd. rewrite <- (gn_length _ _ Hn) in Hd.
    apply lookup_ge_None in Hd. by rewrite Hd.
Qed.

Lemma grid_narrows_well_formed g g' :
  grid_narrows g g' → well_formed g → well_formed g'.
Proof.
  intros Hn [Hd Hr Hc Hb]. split.
  - rewrite (grid_narrows_refs _ _ Hn). exact Hd.
  - rewrite (gn_rows _ _ Hn). exact Hr.
  - rewrite (gn_cols _ _ Hn). exact Hc.
  - rewrite (gn_boxes _ _ Hn). exact Hb.
Qed.

(** ** [Digit.propagate] in closed form *)

Lemma Digit_propagate_unsolved g i d :
  digits g !! i = Some d → Digit_solved d = false → Digit_propagate g i = Ok g.
Proof.
  intros Hd Hs. unfold Digit_propagate.
  rewrite (get_digit_lookup g i d Hd). simpl. by rewrite Hs.
Qed.

Lemma Digit_getSolvedValue_Ok d value :
  Digit_solved d = true → Digit_getSolvedValue d = Ok value →
  ∃ x n, v d = {[ x ]} ∧ py_int x = Ok n ∧ value = PInt n.
Proof.
  intros Hs Hv. destruct (proj1 (Digit_solved_singleton d) Hs) as [x Hx].
  rewrite (Digit_getSolvedValue_singleton d x Hx) in Hv.
  apply bind_Ok in Hv as (n & Hn & [= <-]). by exists x, n.
Qed.

Lemma Digit_propagate_spec g i d x n r c b :
  digits g !! i = Some d → v d = {[ x ]} → py_int x = Ok n →
  groups_of g i d r c b →
  Digit_propagate g i
  = Ok (with_digits (propagated r c b (PInt n) (digits g)) g).
Proof.
  intros Hd Hx Hn Hg.
  assert (Digit_solved d = true) as Hs.
  { apply Digit_solved_singleton. eauto. }
  assert (Digit_getSolvedValue d = Ok (PInt n)) as Hvalue.
  { rewrite (Digit_getSolvedValue_singleton d x Hx), Hn. done. }
  unfold Digit_propagate, propagated.
  rewrite (get_digit_lookup g i d Hd). simpl. rewrite Hs.
  rewrite (get_group_lookup _ _ _ (go_row _ _ _ _ _ _ Hg)). simpl.
  rewrite Hvalue. simpl.
  rewrite DigitGroup_not_possible_spec by apply Hg. simpl.
  set (ds1 := eliminate (group_digits r) (PInt n) (digits g)).
  assert (ds1 !! i = Some d) as Hd1 by by apply eliminate_lookup_solved.
  rewrite (get_digit_lookup (with_digits ds1 g) i d Hd1). simpl.
  rewrite (get_group_lookup _ _ _ (go_col _ _ _ _ _ _ Hg)). simpl.
  rewrite Hvalue. simpl.
  rewrite DigitGroup_not_possible_spec.
  2:{ simpl. unfold ds1. rewrite length_eliminate. apply Hg. }
  simpl.
  set (ds2 := eliminate (group_digits c) (PInt n) ds1).
  assert (ds2 !! i = Some d) as Hd2 by by apply eliminate_lookup_solved.
  rewrite (get_digit_lookup (with_digits ds2 _) i d Hd2). simpl.
  rewrite (get_group_lookup _ _ _ (go_box _ _ _ _ _ _ Hg)). simpl.
  rewrite Hvalue. simpl.
  rewrite DigitGroup_not_possible_spec.
  2:{ simpl. unfold ds2, ds1. rewrite !length_eliminate. apply Hg. }
  done.
Qed.

Lemma propagated_lookup r c b value ds p :
  propagated r c b value ds !! p =
  (λ d, step (bool_decide (p ∈ group_digits b)) value
          (step (bool_decide (p ∈ group_digits c)) value
             (step (bool_decide (p ∈ group_digits r)) value d))) <$> ds !! p.
Proof.
  unfold propagated. rewrite !eliminate_lookup.
  destruct (ds !! p) as [d|]; simpl; [|done]. f_equal.
  unfold step. by repeat case_decide; repeat case_bool_decide.
Qed.

Lemma step_narrows hit value d : narrows d (step hit value d).
Proof. destruct hit; [apply discard_unsolved_narrows|done]. Qed.

Lemma step_keeps_not_elem hit value d :
  value ∉ v d → value ∉ v (step hit value d).
Proof.
  intros Hv Hin. apply Hv.
  by apply (narrows_subseteq _ _ (step_narrows hit value d)).
Qed.

Lemma steps_not_elem h1 h2 h3 value d :
  h1 || h2 || h3 = true → Digit_solved d = false →
  value ∉ v (step h3 value (step h2 value (step h1 value d))).
Proof.
  intros Hhit Hs. destruct h1; simpl.
  - by do 2 apply step_keeps_not_elem; apply discard_unsolved_not_elem.
  - destruct h2; simpl.
    + by apply step_keeps_not_elem, discard_unsolved_not_elem.
    + destruct h3; [|done]. by apply discard_unsolved_not_elem.
Qed.

Lemma steps_narrows h1 h2 h3 value d :
  narrows d (step h3 value (step h2 value (step h1 value d))).
Proof. etrans; [|apply step_narrows]. etrans; apply step_narrows. Qed.

Lemma narrows_unsolved d d' :
  narrows d d' → Digit_solved d' = false → Digit_solved d = false.
Proof.
  intros Hn Hs'. destruct (Digit_solved d) eqn:Hs; [|done].
  by rewrite (narrows_keeps_solved d d' Hn Hs) in Hs'.
Qed.

Lemma Digit_getSolvedValue_ext d d' :
  v d' = v d → Digit_getSolvedValue d' = Digit_getSolvedValue d.
Proof. unfold Digit_getSolvedValue, Digit_solved. by intros ->. Qed.

Lemma peers_member g c d r cl b p dp :
  well_formed g → digits g !! c = Some d → groups_of g c d r cl b →
  digits g !! p = Some dp → peers d dp →
  bool_decide (p ∈ group_digits r) || bool_decide (p ∈ group_digits cl)
  || bool_decide (p ∈ group_digits b) = true.
Proof.
  intros Hwf Hd Hg Hdp Hpeer.
  destruct (well_formed_groups g p dp Hwf Hdp) as (r' & c' & b' & Hg').
  rewrite !orb_true_iff, !bool_decide_eq_true.
  destruct Hpeer as [Hr|[Hc|Hb]].
  - left; left. pose proof (go_row _ _ _ _ _ _ Hg') as H'.
    rewrite Hr, (go_row _ _ _ _ _ _ Hg) in H'. injection H' as ->.
    apply Hg'.
  - left; right. pose proof (go_col _ _ _ _ _ _ Hg') as H'.
    rewrite Hc, (go_col _ _ _ _ _ _ Hg) in H'. injection H' as ->.
    apply Hg'.
  - right. pose proof (go_box _ _ _ _ _ _ Hg') as H'.
    rewrite Hb, (go_box _ _ _ _ _ _ Hg) in H'. injection H' as ->.
    apply Hg'.
Qed.

Lemma Digit_propagate_peers g c d value :
  well_formed g → digits g !! c = Some d → Digit_solved d = true →
  Digit_getSolvedValue d = Ok value →
  ∃ g', Digit_propagate g c = Ok g' ∧
    ∀ p dp dp', p ≠ c → digits g !! p = Some dp → peers d dp →
      digits g' !! p = Some dp' →
      Digit_solved dp = false ∨ Digit_solved dp' = false →
      value ∉ v dp'.
Proof.
  intros Hwf Hd Hs Hv.
  destruct (Digit_getSolvedValue_Ok d value Hs Hv) as (x & n & Hx & Hn & ->).
  destruct (well_formed_groups g c d Hwf Hd) as (r & cl & b & Hg).
  eexists. split; [by eapply Digit_propagate_spec|].
  intros p dp dp' _ Hdp Hpeer Hdp' Hu. simpl in Hdp'.
  rewrite propagated_lookup, Hdp in Hdp'. injection Hdp' as <-.
  apply steps_not_elem; [by apply (peers_member g c d r cl b p dp)|].
  destruct Hu as [Hu|Hu]; [done|].
  eapply narrows_unsolved; [apply steps_narrows|done].
Qed.

(** ** When propagation returns *)

Lemma bind_Raise {A B} (m : result A) (f : A → result B) (e : exn) :
  m ≫= f = Raise e ↔ m = Raise e ∨ ∃ a, m = Ok a ∧ f a = Raise e.
Proof.
  destruct m as [a|e']; simpl; split.
  - intros Hf. right. by exists a.
  - by intros [[=]|(a' & [= <-] & Hf)].
  - intros [= ->]. by left.
  - by intros [[= ->]|(a' & [=] & _)].
Qed.

Lemma py_int_ok_Ok x : py_int_ok x = true ↔ ∃ n, py_int x = Ok n.
Proof.
  unfold py_int_ok. destruct (py_int x) as [n|e]; split; eauto.
  - done.
  - by intros [n [=]].
Qed.

Lemma numeric_lookup g i d x :
  numeric g → digits g !! i = Some d → x ∈ v d → ∃ n, py_int x = Ok n.
Proof.
  intros Hnum Hd Hx. apply py_int_ok_Ok.
  by apply (Forall_lookup_1 _ _ _ _ Hnum Hd).
Qed.

Lemma grid_narrows_numeric g g' : grid_narrows g g' → numeric g → numeric g'.
Proof.
  intros Hn Hnum. apply Forall_lookup_2. intros i d' Hd' x Hx.
  destruct (digits g !! i) as [d|] eqn:Hd.
  - destruct (gn_digits _ _ Hn i d Hd) as (d'' & Hd'' & Hdd).
    assert (d'' = d') as -> by congruence.
    apply (Forall_lookup_1 _ _ _ _ Hnum Hd). by apply (narrows_subseteq _ _ Hdd).
  - apply lookup_ge_None in Hd. rewrite <- (gn_length _ _ Hn) in Hd.
    apply lookup_ge_None in Hd. congruence.
Qed.

Lemma Digit_propagate_total g i :
  well_formed g → numeric g → i < length (digits g) →
  ∃ g', Digit_propagate g i = Ok g'.
Proof.
  intros Hwf Hnum [d Hd]%lookup_lt_is_Some.
  destruct (Digit_solved d) eqn:Hs.
  - destruct (proj1 (Digit_solved_singleton d) Hs) as [x Hx].
    destruct (numeric_lookup g i d x Hnum Hd) as [n Hn].
    { rewrite Hx. by apply elem_of_singleton. }
    destruct (well_formed_groups g i d Hwf Hd) as (r & c & b & Hg).
    rewrite (Digit_propagate_spec g i d x n r c b Hd Hx Hn Hg). eauto.
  - exists g. by apply (Digit_propagate_unsolved g i d).
Qed.

Lemma Grid_propagate_all_total g :
  well_formed g → numeric g →
  ∃ g', Grid_propagate_all g = Ok g' ∧ well_formed g' ∧ numeric g'.
Proof.
  intros Hwf Hnum. unfold Grid_propagate_all.
  apply (for_each_total (λ t, well_formed t ∧ numeric t)); [|done].
  intros i t Hi [Hwft Hnumt].
  destruct (Digit_propagate_total t i Hwft Hnumt) as [t' Ht'].
  { apply elem_of_seq in Hi.
    rewrite (well_formed_length t Hwft), <- (well_formed_length g Hwf). lia. }
  exists t'. split; [done|].
  apply Digit_propagate_narrows in Ht'. split.
  - by eapply grid_narrows_well_formed.
  - by eapply grid_narrows_numeric.
Qed.

(** ** The solved-digit exception is out of reach of propagation *)

Lemma DigitGroup_not_possible_no_Exception g grp value msg :
  DigitGroup_not_possible g grp value ≠ Raise (Exception msg).
Proof.
  unfold DigitGroup_not_possible.
  intros (dig & t & _ & Hbody)%for_each_raise.
  apply bind_Raise in Hbody as [Hget|(d & Hget & Hbody)].
  - unfold get_digit in Hget. by destruct (digits t !! dig).
  - destruct (Digit_solved d) eqn:Hs; simpl in Hbody; [done|].
    unfold Digit_not_possible_default in Hbody.
    rewrite Hget in Hbody. simpl in Hbody. by rewrite Hs in Hbody.
Qed.

Lemma py_int_no_Exception x msg : py_int x ≠ Raise (Exception msg).
Proof.
  destruct x as [z|c|]; simpl; try done.
  by destruct (_ && _).
Qed.

Lemma Digit_getSolvedValue_no_Exception d msg :
  Digit_getSolvedValue d ≠ Raise (Exception msg).
Proof.
  unfold Digit_getSolvedValue.
  destruct (Digit_solved d); [|done].
  destruct (elements (v d)) as [|x l]; [done|].
  intros [H|(n & _ & H)]%bind_Raise; [|done].
  by apply py_int_no_Exception in H.
Qed.

Lemma get_digit_no_Exception g i msg : get_digit g i ≠ Raise (Exception msg).
Proof. unfold get_digit. by destruct (digits g !! i). Qed.

Lemma get_group_no_Exception gs r msg : get_group gs r ≠ Raise (Exception msg).
Proof. unfold get_group. by destruct (gs !! r). Qed.

Lemma Digit_propagate_no_Exception g i msg :
  Digit_propagate g i ≠ Raise (Exception msg).
Proof.
  unfold Digit_propagate.
  intros [H|(d & _ & H)]%bind_Raise; [by apply get_digit_no_Exception in H|].
  destruct (Digit_solved d); [|done].
  repeat
    (apply bind_Raise in H as [H|(? & _ & H)];
     [first [ by apply get_digit_no_Exception in H
            | by apply get_group_no_Exception in H
            | by apply Digit_getSolvedValue_no_Exception in H
            | by apply DigitGroup_not_possible_no_Exception in H ]|]).
  by apply DigitGroup_not_possible_no_Exception in H.
Qed.

Lemma Grid_propagate_all_no_Exception g msg :
  Grid_propagate_all g ≠ Raise (Exception msg).
Proof.
  unfold Grid_propagate_all. intros (i & t & _ & H)%for_each_raise.
  by apply Digit_propagate_no_Exception in H.
Qed.

(** ** Assignment and [Grid.load] *)

Lemma size_ge_1 (s : gset pyval) : 1 ≤ size s ↔ s ≠ ∅.
Proof.
  split.
  - intros Hs ->. rewrite size_empty in Hs. lia.
  - intros Hne. assert (size s ≠ 0); [|lia].
    rewrite size_non_empty_iff. by intros ?%leibniz_equiv.
Qed.

Lemma grid_narrows_nonempty g g' :
  grid_narrows g g' → nonempty g → nonempty g'.
Proof.
  intros Hn Hne i d' Hd'.
  destruct (digits g !! i) as [d|] eqn:Hd.
  - destruct (gn_digits _ _ Hn i d Hd) as (d'' & Hd'' & Hdd).
    assert (d'' = d') as -> by congruence.
    apply size_ge_1, (narrows_nonempty _ _ Hdd), size_ge_1. by eapply Hne.
  - apply lookup_ge_None in Hd. rewrite <- (gn_length _ _ Hn) in Hd.
    apply lookup_ge_None in Hd. congruence.
Qed.

Lemma list_to_set_single (x : pyval) :
  (list_to_set [x] : gset pyval) = {[ x ]}.
Proof. simpl. apply union_empty_r_L. Qed.

Lemma Digit_setSolvedValue_assign g i d myvalue :
  digits g !! i = Some d →
  Digit_setSolvedValue g i myvalue false = Ok (set_v g i {[ myvalue ]}).
Proof.
  intros Hd. unfold Digit_setSolvedValue.
  rewrite (get_digit_lookup g i d Hd). simpl. by rewrite union_empty_r_L.
Qed.

Lemma set_v_refs g i s :
  digit_refs <$> digits (set_v g i s) = digit_refs <$> digits g.
Proof.
  apply list_eq. intros j. rewrite !list_lookup_fmap, set_v_lookup.
  destruct (digits g !! j) as [d|]; simpl; [|done]. by case_decide.
Qed.

Lemma set_v_well_formed g i s : well_formed g → well_formed (set_v g i s).
Proof.
  intros [Hd Hr Hc Hb]. split; [|exact Hr|exact Hc|exact Hb].
  rewrite set_v_refs. exact Hd.
Qed.

Lemma set_v_length g i s : length (digits (set_v g i s)) = length (digits g).
Proof. simpl. apply length_alter. Qed.

Lemma set_v_nonempty g i s : s ≠ ∅ → nonempty g → nonempty (set_v g i s).
Proof.
  intros Hs Hne j d'. rewrite set_v_lookup.
  destruct (digits g !! j) as [d|] eqn:Hd; simpl; [|done].
  intros [= <-]. case_decide; simpl; [by apply size_ge_1|by eapply Hne].
Qed.

Lemma set_v_numeric g i s :
  set_Forall (λ x, py_int_ok x = true) s → numeric g → numeric (set_v g i s).
Proof.
  intros Hs Hnum. apply Forall_lookup_2. intros j d'. rewrite set_v_lookup.
  destruct (digits g !! j) as [d|] eqn:Hd; simpl; [|done].
  intros [= <-]. case_decide; simpl; [done|].
  by apply (Forall_lookup_1 _ _ _ _ Hnum Hd).
Qed.

(** The three classes of characters [load] recognizes are disjoint. *)
Lemma known_not_unknown c :
  str_contains "123456789" c = true →
  str_contains UNKNOWN_DIGIT_INPUT c = false ∧
  str_contains ROW_TERMINATOR c = false.
Proof.
  unfold UNKNOWN_DIGIT_INPUT, ROW_TERMINATOR. simpl.
  repeat (case_decide; [subst c; by vm_compute|]). done.
Qed.

Lemma unknown_not_terminator c :
  str_contains UNKNOWN_DIGIT_INPUT c = true →
  str_contains "123456789" c = false ∧
  str_contains ROW_TERMINATOR c = false.
Proof.
  unfold UNKNOWN_DIGIT_INPUT, ROW_TERMINATOR. simpl.
  repeat (case_decide; [subst c; by vm_compute|]). done.
Qed.

Lemma terminator_not_digit c :
  str_contains ROW_TERMINATOR c = true →
  str_contains "123456789" c = false ∧
  str_contains UNKNOWN_DIGIT_INPUT c = false.
Proof.
  unfold UNKNOWN_DIGIT_INPUT, ROW_TERMINATOR. simpl.
  repeat (case_decide; [subst c; by vm_compute|]). done.
Qed.

Lemma known_digit_int c :
  str_contains "123456789" c = true → py_int_ok (PChr c) = true.
Proof.
  simpl. repeat (case_decide; [subst c; by vm_compute|]). done.
Qed.

#[global] Arguments str_contains : simpl never.

Lemma next_row_spec counter :
  next_row counter mod 9 = 0 ∧ counter ≤ next_row counter < counter + 9.
Proof.
  unfold next_row. pose proof (Nat.div_mod_eq counter 9) as Hdm.
  assert (counter mod 9 < 9) as Hlt by (by apply Nat.mod_upper_bound).
  destruct (counter mod 9 =? 0) eqn:Hm; cbn [negb].
  - apply Nat.eqb_eq in Hm. lia.
  - apply Nat.eqb_neq in Hm. split; [|lia].
    rewrite Nat.mul_comm. apply Nat.Div0.mod_mul.
Qed.

Lemma next_row_bound counter : counter ≤ 80 → next_row counter ≤ 81.
Proof.
  intros Hc. unfold next_row. pose proof (Nat.div_mod_eq counter 9) as Hdm.
  destruct (counter mod 9 =? 0); cbn [negb]; lia.
Qed.

Lemma load_loop_nil counter g : load_loop "" counter g = Ok (counter, g).
Proof. done. Qed.

Lemma load_loop_cons c rest counter g :
  load_loop (String c rest) counter g =
  if 80 <? counter then Ok (counter, g)
  else if str_contains "123456789" c then
    g' ← Digit_setSolvedValue g counter (PChr c) false;
    load_loop rest (counter + 1) g'
  else if str_contains UNKNOWN_DIGIT_INPUT c then
    load_loop rest (counter + 1) g
  else if str_contains ROW_TERMINATOR c then
    load_loop rest (next_row counter) g
  else load_loop rest counter g.
Proof. unfold next_row. cbn [load_loop]. by destruct (negb _). Qed.

(** An invariant of the grid that every assignment of a digit character
    preserves is preserved by the whole loop. *)
Lemma load_loop_inv (P : Grid → Prop) puzzle counter g n g' :
  (∀ t i c, P t → str_contains "123456789" c = true →
            P (set_v t i {[ PChr c ]})) →
  P g → load_loop puzzle counter g = Ok (n, g') → P g'.
Proof.
  intros Hset. revert counter g.
  induction puzzle as [|c rest IH]; intros counter g Hg.
  - by intros [= _ <-].
  - rewrite load_loop_cons.
    destruct (80 <? counter); [by intros [= _ <-]|].
    destruct (str_contains "123456789" c) eqn:Hc.
    + intros (t & Ht & Hrest)%bind_Ok. eapply IH; [|done].
      unfold Digit_setSolvedValue in Ht.
      apply bind_Ok in Ht as (d & _ & [= <-]).
      rewrite union_empty_r_L. by apply Hset.
    + destruct (str_contains UNKNOWN_DIGIT_INPUT c); [by apply IH|].
      destruct (str_contains ROW_TERMINATOR c); by apply IH.
Qed.

Lemma load_loop_total puzzle counter g :
  length (digits g) = 81 → counter ≤ 81 →
  ∃ n g', load_loop puzzle counter g = Ok (n, g') ∧ counter ≤ n ≤ 81 ∧
          length (digits g') = 81.
Proof.
  revert counter g.
  induction puzzle as [|c rest IH]; intros counter g Hlen Hc.
  - exists counter, g. repeat split; (done || lia).
  - rewrite load_loop_cons. destruct (80 <? counter) eqn:Hbreak.
    { exists counter, g. repeat split; (done || lia). }
    apply Nat.ltb_ge in Hbreak.
    assert (∀ m t, counter ≤ m ≤ 81 → length (digits t) = 81 →
      ∃ n g', load_loop rest m t = Ok (n, g') ∧ counter ≤ n ≤ 81 ∧
              length (digits g') = 81) as Hnext.
    { intros m t Hm Ht. destruct (IH m t Ht) as (n & g' & -> & Hn & Hg').
      - lia.
      - exists n, g'. repeat split; (done || lia). }
    pose proof (next_row_bound counter Hbreak) as Hnr.
    pose proof (next_row_spec counter) as [_ Hnr'].
    destruct (str_contains "123456789" c).
    + destruct (lookup_lt_is_Some_2 (digits g) counter) as [d Hd]; [lia|].
      rewrite (Digit_setSolvedValue_assign g counter d _ Hd).
      apply Hnext; [lia|]. by rewrite set_v_length.
    + destruct (str_contains UNKNOWN_DIGIT_INPUT c);
        [apply Hnext; (done || lia)|].
      destruct (str_contains ROW_TERMINATOR c); apply Hnext; (done || lia).
Qed.

(** [load] on a grid of the program returns, and keeps what it finds. *)
Lemma Grid_load_total g puzzle :
  well_formed g →
  ∃ g', Grid_load g puzzle = Ok g' ∧ well_formed g' ∧
        (numeric g → numeric g') ∧ (nonempty g → nonempty g').
Proof.
  intros Hwf. unfold Grid_load.
  destruct (load_loop_total puzzle 0 g (well_formed_length g Hwf))
    as (n & t & Ht & _ & _); [lia|].
  rewrite Ht. simpl. eexists. split; [done|].
  split; [|split].
  - assert (well_formed t) as [Hd Hr Hc Hb].
    { apply (load_loop_inv well_formed puzzle 0 g n t); [|done|done].
      intros u i c Hu _. by apply set_v_well_formed. }
    split; [exact Hd|exact Hr|exact Hc|exact Hb].
  - intros Hnum.
    apply (load_loop_inv numeric puzzle 0 g n t); [|done|done].
    intros u i c Hu Hc. apply set_v_numeric; [|done].
    intros x ->%elem_of_singleton. by apply known_digit_int.
  - intros Hne.
    apply (load_loop_inv nonempty puzzle 0 g n t); [|done|done].
    intros u i c Hu _. apply set_v_nonempty; [|done].
    intros H. assert (PChr c ∈ (∅ : gset pyval)) as Hx.
    { rewrite <- H. by apply elem_of_singleton. }
    by apply not_elem_of_empty in Hx.
Qed.

Lemma numeric_init : numeric Grid_init.
Proof. apply (bool_decide_unpack _). vm_compute. exact I. Qed.

Lemma unwrap_Ok {A : Type} (dflt : A) (r : result A) :
  (∃ a, r = Ok a) → r = Ok (unwrap dflt r).
Proof. by intros [a ->]. Qed.

Lemma digit_at_lookup g i :
  (i <? length (digits g)) = true → digits g !! i = Some (digit_at g i).
Proof.
  intros [d Hd]%Nat.ltb_lt%lookup_lt_is_Some. unfold digit_at. by rewrite Hd.
Qed.

Lemma load_fresh_Ok puzzle :
  Grid_load Grid_init puzzle = Ok (load_fresh puzzle) ∧
  well_formed (load_fresh puzzle) ∧ numeric (load_fresh puzzle) ∧
  nonempty (load_fresh puzzle).
Proof.
  destruct (Grid_load_total Grid_init puzzle well_formed_init)
    as (g & Hg & Hwf & Hnum & Hne).
  unfold load_fresh. rewrite Hg. simpl.
  split; [done|]. split; [done|].
  split; [apply Hnum, numeric_init|].
  apply Hne. intros i d Hd.
  assert (Forall (λ d, 1 ≤ size (v d)) (digits Grid_init)) as H.
  { apply (bool_decide_unpack _). vm_compute. exact I. }
  by apply (Forall_lookup_1 _ _ _ _ H Hd).
Qed.

(** * The stated properties *)

(** ** Cell-level elimination *)



(** ** Peer elimination *)

Lemma grid_narrows_lookup_r g g' i d' :
  grid_narrows g g' → digits g' !! i = Some d' →
  ∃ d, digits g !! i = Some d ∧ narrows d d'.
Proof.
  intros Hn Hd'. destruct (digits g !! i) as [d|] eqn:Hd.
  - destruct (gn_digits _ _ Hn i d Hd) as (d'' & Hd'' & Hdd).
    exists d. split; [done|]. congruence.
  - apply lookup_ge_None in Hd. rewrite <- (gn_length _ _ Hn) in Hd.
    apply lookup_ge_None in Hd. congruence.
Qed.

Lemma for_each_propagate_narrows l g g' :
  for_each l (λ i g, Digit_propagate g i) g = Ok g' → grid_narrows g g'.
Proof.
  apply for_each_rel; try apply _.
  intros i t t' _. apply Digit_propagate_narrows.
Qed.

Lemma peers_narrows d d' dp dp' :
  narrows d d' → narrows dp dp' → peers d dp' → peers d' dp.
Proof.
  intros Hd Hp. unfold peers.
  rewrite (narrows_row _ _ Hd), (narrows_col _ _ Hd), (narrows_box _ _ Hd).
  by rewrite (narrows_row _ _ Hp), (narrows_col _ _ Hp), (narrows_box _ _ Hp).
Qed.

(** C1.  Let digit [c] be solved with value [value].  [c.propagate()]
    returns, and afterwards [value] is no candidate of any other digit in the
    row, column or box of [c] that is not solved (whether "not solved" is read
    before or after the call).  The same holds after a whole
    [propagate_all()] for the peers that are not solved at its end. *)
Theorem peer_elimination g c d value :
  well_formed g → digits g !! c = Some d → Digit_solved d = true →
  Digit_getSolvedValue d = Ok value →
  (∃ g', Digit_propagate g c = Ok g' ∧
     ∀ p dp dp', p ≠ c → digits g !! p = Some dp → peers d dp →
       digits g' !! p = Some dp' →
       Digit_solved dp = false ∨ Digit_solved dp' = false →
       value ∉ v dp') ∧
  (∀ g', Grid_propagate_all g = Ok g' →
     ∀ p dp', p ≠ c → digits g' !! p = Some dp' → peers d dp' →
       Digit_solved dp' = false → value ∉ v dp').
Proof.
  intros Hwf Hd Hs Hv. split; [by apply Digit_propagate_peers|].
  intros g' Hall p dp' Hpc Hdp' Hpeer Hu.
  assert (c < length (digits g)) as Hc by by eapply lookup_lt_Some.
  unfold Grid_propagate_all in Hall.
  replace (length (digits g)) with (c + S (length (digits g) - S c)) in Hall
    by lia.
  rewrite seq_app, for_each_app in Hall. simpl in Hall.
  apply bind_Ok in Hall as (g1 & H1%for_each_propagate_narrows & Hall).
  apply bind_Ok in Hall as (g2 & Hc2 & H2%for_each_propagate_narrows).
  destruct (gn_digits _ _ H1 c d Hd) as (d1 & Hd1 & Hdd1).
  pose proof (grid_narrows_well_formed _ _ H1 Hwf) as Hwf1.
  destruct (Digit_propagate_peers g1 c d1 value Hwf1 Hd1)
    as (g2' & Hc2' & Hpeers).
  { by eapply narrows_keeps_solved. }
  { rewrite <- Hv. apply Digit_getSolvedValue_ext. by apply Hdd1. }
  assert (g2' = g2) as -> by congruence.
  destruct (grid_narrows_lookup_r _ _ p dp' H2 Hdp') as (dp2 & Hdp2 & Hn2).
  pose proof (Digit_propagate_narrows _ _ _ Hc2) as H12.
  destruct (grid_narrows_lookup_r _ _ p dp2 H12 Hdp2) as (dp1 & Hdp1 & Hn1).
  intros Hin. apply (Hpeers p dp1 dp2 Hpc Hdp1); [|done| |].
  - apply (peers_narrows d d1 dp1 dp'); [done|by etrans|done].
  - right. by eapply narrows_unsolved.
  - by apply (narrows_subseteq _ _ Hn2).
Qed.

Lemma peer_elimination_witness :
  well_formed example_loaded ∧
  Digit_getSolvedValue (digit_at example_loaded 2) = Ok (PInt 6) ∧
  ∃ g', Digit_propagate example_loaded 2 = Ok g' ∧
    ∀ p dp dp', p ≠ 2 → digits example_loaded !! p = Some dp →
      peers (digit_at example_loaded 2) dp →
      digits g' !! p = Some dp' →
      Digit_solved dp = false ∨ Digit_solved dp' = false →
      PInt 6 ∉ v dp'.
Proof.
  assert (well_formed example_loaded) as Hwf.
  { split; vm_compute; reflexivity. }
  assert (digits example_loaded !! 2 = Some (digit_at example_loaded 2)) as Hd.
  { apply digit_at_lookup. vm_compute. reflexivity. }
  assert (Digit_solved (digit_at example_loaded 2) = true) as Hs.
  { vm_compute. reflexivity. }
  assert (Digit_getSolvedValue (digit_at example_loaded 2) = Ok (PInt 6))
    as Hv.
  { vm_compute. reflexivity. }
  split; [exact Hwf|]. split; [exact Hv|].
  exact (proj1 (peer_elimination example_loaded 2
                  (digit_at example_loaded 2) (PInt 6) Hwf Hd Hs Hv)).
Defined.

(** ** Monotonicity *)

(** C2.  A call of [propagate_all()] never increases [number_unsolved()]:
    whenever the call returns, the count after it is at most the count before
    it; and on a grid of the program whose candidates are integers or digit
    characters the call does return. *)
Theorem number_unsolved_monotone g :
  (∀ g', Grid_propagate_all g = Ok g' →
         Grid_number_unsolved g' ≤ Grid_number_unsolved g) ∧
  (well_formed g → numeric g →
   ∃ g', Grid_propagate_all g = Ok g' ∧
         Grid_number_unsolved g' ≤ Grid_number_unsolved g).
Proof.
  assert (∀ g', Grid_propagate_all g = Ok g' →
                Grid_number_unsolved g' ≤ Grid_number_unsolved g) as Hmono.
  { intros g' Hg'. by apply grid_narrows_unsolved, Grid_propagate_all_narrows. }
  split; [done|]. intros Hwf Hnum.
  destruct (Grid_propagate_all_total g Hwf Hnum) as (g' & Hg' & _).
  exists g'. split; [done|]. by apply Hmono.
Qed.

Lemma number_unsolved_monotone_witness :
  well_formed example_loaded ∧ numeric example_loaded ∧
  ∃ g', Grid_propagate_all example_loaded = Ok g' ∧
        Grid_number_unsolved g' ≤ Grid_number_unsolved example_loaded.
Proof.
  assert (well_formed example_loaded) as Hwf.
  { split; vm_compute; reflexivity. }
  assert (numeric example_loaded) as Hnum.
  { apply (bool_decide_unpack _). vm_compute. exact I. }
  split; [exact Hwf|]. split; [exact Hnum|].
  exact (proj2 (number_unsolved_monotone example_loaded) Hwf Hnum).
Defined.

(** ** Candidate sets are never empty *)

Lemma nonempty_init : nonempty Grid_init.
Proof.
  assert (Forall (λ d, 1 ≤ size (v d)) (digits Grid_init)) as H.
  { apply (bool_decide_unpack _). vm_compute. exact I. }
  intros i d Hd. by apply (Forall_lookup_1 _ _ _ _ H Hd).
Qed.

Lemma singleton_nonempty (x : pyval) : ({[ x ]} : gset pyval) ≠ ∅.
Proof.
  intros H. assert (x ∈ (∅ : gset pyval)) as Hx.
  { rewrite <- H. by apply elem_of_singleton. }
  by apply not_elem_of_empty in Hx.
Qed.

Lemma Digit_setSolvedValue_nonempty g i myvalue propagate g' :
  nonempty g → Digit_setSolvedValue g i myvalue propagate = Ok g' →
  nonempty g'.
Proof.
  intros Hne. unfold Digit_setSolvedValue.
  intros (d & _ & Hbody)%bind_Ok. cbv zeta in Hbody.
  assert (nonempty (set_v g i (list_to_set [myvalue]))) as Hne'.
  { apply set_v_nonempty; [|done].
    rewrite list_to_set_single. apply singleton_nonempty. }
  destruct propagate.
  - apply Digit_propagate_narrows in Hbody. by eapply grid_narrows_nonempty.
  - by injection Hbody as <-.
Qed.

Lemma Grid_load_inv (P : Grid → Prop) g puzzle g' :
  (∀ t i c, P t → str_contains "123456789" c = true →
            P (set_v t i {[ PChr c ]})) →
  (∀ t, P t → P (mkGrid (digits t) (rows t) (cols t) (boxes t) true)) →
  P g → Grid_load g puzzle = Ok g' → P g'.
Proof.
  intros Hset Hloaded Hg. unfold Grid_load.
  intros ([n t] & Ht & [= <-])%bind_Ok.
  apply Hloaded. by eapply load_loop_inv.
Qed.

(** C3.  Every digit always has at least one candidate: this holds for the
    81 digits of a fresh grid, and every operation that returns ([load],
    [setSolvedValue] with or without propagation, [propagate_all],
    [propagate], and the elimination methods of a digit and of a group)
    leads from a grid where it holds to a grid where it holds. *)
Theorem candidates_never_empty :
  (length (digits Grid_init) = 81 ∧ nonempty Grid_init) ∧
  (∀ g puzzle g', nonempty g → Grid_load g puzzle = Ok g' → nonempty g') ∧
  (∀ g i myvalue propagate g',
     nonempty g → Digit_setSolvedValue g i myvalue propagate = Ok g' →
     nonempty g') ∧
  (∀ g g', nonempty g → Grid_propagate_all g = Ok g' → nonempty g') ∧
  (∀ g i g', nonempty g → Digit_propagate g i = Ok g' → nonempty g') ∧
  (∀ g grp value g',
     nonempty g → DigitGroup_not_possible g grp value = Ok g' →
     nonempty g') ∧
  (∀ g i value recurse g',
     nonempty g → Digit_not_possible g i value recurse = Ok g' →
     nonempty g').
Proof.
  split; [split; [apply Grid_init_length|apply nonempty_init]|].
  split.
  { intros g puzzle g' Hne. apply (Grid_load_inv nonempty); [| |done].
    - intros t i c Ht _. apply set_v_nonempty; [|done].
      apply singleton_nonempty.
    - intros t Ht. exact Ht. }
  split; [apply Digit_setSolvedValue_nonempty|].
  split.
  { intros g g' Hne Hg'%Grid_propagate_all_narrows.
    by eapply grid_narrows_nonempty. }
  split.
  { intros g i g' Hne Hg'%Digit_propagate_narrows.
    by eapply grid_narrows_nonempty. }
  split.
  { intros g grp value g' Hne Hg'%DigitGroup_not_possible_narrows.
    by eapply grid_narrows_nonempty. }
  intros g i value recurse g' Hne. unfold Digit_not_possible.
  intros (t & Ht%Digit_not_possible_default_narrows & Hbody)%bind_Ok.
  pose proof (grid_narrows_nonempty _ _ Ht Hne) as Hnet.
  destruct recurse.
  - apply Digit_propagate_narrows in Hbody. by eapply grid_narrows_nonempty.
  - by injection Hbody as <-.
Qed.

Lemma candidates_never_empty_witness :
  nonempty Grid_init ∧ Grid_load Grid_init EXAMPLE_GRID = Ok example_loaded ∧
  nonempty example_loaded.
Proof.
  assert (Grid_load Grid_init EXAMPLE_GRID = Ok example_loaded) as Hload.
  { apply (load_fresh_Ok EXAMPLE_GRID). }
  split; [exact (proj2 (proj1 candidates_never_empty))|].
  split; [exact Hload|].
  exact (proj1 (proj2 candidates_never_empty) Grid_init EXAMPLE_GRID
           example_loaded (proj2 (proj1 candidates_never_empty)) Hload).
Defined.

(** ** The solved-digit exception and [propagate_all] *)

(** C9.  [propagate_all()] never raises "at least one value has to be
    possible", whatever the grid, because [DigitGroup.not_possible] calls
    [Digit.not_possible] only on members that are not solved at that moment.
    On a grid of the program whose candidates are integers or digit
    characters it raises nothing at all. *)
Theorem propagate_all_never_raises_solved :
  (∀ g msg, Grid_propagate_all g ≠ Raise (Exception msg)) ∧
  (∀ g grp value msg,
     DigitGroup_not_possible g grp value ≠ Raise (Exception msg)) ∧
  (∀ g, well_formed g → numeric g → ∃ g', Grid_propagate_all g = Ok g').
Proof.
  split; [apply Grid_propagate_all_no_Exception|].
  split; [apply DigitGroup_not_possible_no_Exception|].
  intros g Hwf Hnum.
  destruct (Grid_propagate_all_total g Hwf Hnum) as (g' & Hg' & _). eauto.
Qed.

Lemma propagate_all_never_raises_solved_witness :
  (Digit_getSolvedValue <$> digits duplicate_loaded !! 0 = Some (Ok (PInt 1)) ∧
   Digit_getSolvedValue <$> digits duplicate_loaded !! 1 = Some (Ok (PInt 1)))
  ∧ well_formed duplicate_loaded ∧ numeric duplicate_loaded ∧
  ∃ g', Grid_propagate_all duplicate_loaded = Ok g'.
Proof.
  assert (well_formed duplicate_loaded) as Hwf.
  { split; vm_compute; reflexivity. }
  assert (numeric duplicate_loaded) as Hnum.
  { apply (bool_decide_unpack _). vm_compute. exact I. }
  split; [split; vm_compute; reflexivity|].
  split; [exact Hwf|]. split; [exact Hnum|].
  exact (proj2 (proj2 propagate_all_never_raises_solved)
           duplicate_loaded Hwf Hnum).
Defined.

(** ** Position, row, column and box *)

(** C7.  The digit constructed at position [p] of the 81 carries the
    references row [p / 9], column [p mod 9] and box
    [(row / 3) * 3 + column / 3], which is what [row_col_box] returns; it is
    a member of those three groups and of no other row, column or box;
    position 35 is in row 3, column 8 and box 5. *)
Theorem position_row_col_box p :
  p < 81 →
  row_col_box p = (p / 9, p mod 9, p / 9 / 3 * 3 + p mod 9 / 3) ∧
  (∃ d r c b,
     digits Grid_init !! p = Some d ∧ position d = p ∧
     row d = p / 9 ∧ col d = p mod 9 ∧
     box d = p / 9 / 3 * 3 + p mod 9 / 3 ∧
     rows Grid_init !! (p / 9) = Some r ∧ p ∈ group_digits r ∧
     cols Grid_init !! (p mod 9) = Some c ∧ p ∈ group_digits c ∧
     boxes Grid_init !! (p / 9 / 3 * 3 + p mod 9 / 3) = Some b ∧
     p ∈ group_digits b) ∧
  ((∀ grp, grp ∈ rows Grid_init → p ∈ group_digits grp →
           rows Grid_init !! (p / 9) = Some grp) ∧
   (∀ grp, grp ∈ cols Grid_init → p ∈ group_digits grp →
           cols Grid_init !! (p mod 9) = Some grp) ∧
   (∀ grp, grp ∈ boxes Grid_init → p ∈ group_digits grp →
           boxes Grid_init !! (p / 9 / 3 * 3 + p mod 9 / 3) = Some grp)) ∧
  row_col_box 35 = (3, 8, 5).
Proof.
  intros Hp. split; [reflexivity|]. split; [|split; [|reflexivity]].
  2:{ destruct Grid_init_members_back as (Hr & Hc & Hb).
      rewrite Forall_forall in Hr. rewrite Forall_forall in Hc.
      rewrite Forall_forall in Hb.
      split; [|split].
      - intros grp Hgrp Hin. specialize (Hr grp Hgrp).
        rewrite Forall_forall in Hr. exact (Hr p Hin).
      - intros grp Hgrp Hin. specialize (Hc grp Hgrp).
        rewrite Forall_forall in Hc. exact (Hc p Hin).
      - intros grp Hgrp Hin. specialize (Hb grp Hgrp).
        rewrite Forall_forall in Hb. exact (Hb p Hin). }
  destruct (well_formed_lookup Grid_init p well_formed_init Hp) as [d Hd].
  destruct (well_formed_refs Grid_init p d well_formed_init Hd)
    as (_ & Hpos & Hr & Hc & Hb).
  destruct (well_formed_groups Grid_init p d well_formed_init Hd)
    as (r & c & b & Hg).
  exists d, r, c, b. unfold box_of in Hb.
  split; [exact Hd|]. split; [exact Hpos|]. split; [exact Hr|].
  split; [exact Hc|]. split; [exact Hb|].
  split; [rewrite <- Hr; apply Hg|]. split; [apply Hg|].
  split; [rewrite <- Hc; apply Hg|]. split; [apply Hg|].
  split; [rewrite <- Hb; apply Hg|]. apply Hg.
Qed.

Lemma position_row_col_box_witness :
  35 < 81 ∧
  ∃ d r c b,
    digits Grid_init !! 35 = Some d ∧ position d = 35 ∧
    row d = 35 / 9 ∧ col d = 35 mod 9 ∧
    box d = 35 / 9 / 3 * 3 + 35 mod 9 / 3 ∧
    rows Grid_init !! (35 / 9) = Some r ∧ 35 ∈ group_digits r ∧
    cols Grid_init !! (35 mod 9) = Some c ∧ 35 ∈ group_digits c ∧
    boxes Grid_init !! (35 / 9 / 3 * 3 + 35 mod 9 / 3) = Some b ∧
    35 ∈ group_digits b.
Proof.
  assert (35 < 81) as H by lia.
  split; [exact H|]. exact (proj1 (proj2 (position_row_col_box 35 H))).
Defined.

(** ** Parsing in [Grid.load] *)

Lemma load_loop_break puzzle counter g :
  80 < counter → load_loop puzzle counter g = Ok (counter, g).
Proof.
  intros Hc. destruct puzzle as [|c rest]; [done|].
  rewrite load_loop_cons. by rewrite (proj2 (Nat.ltb_lt _ _) Hc).
Qed.

Lemma load_loop_terminator c rest counter g :
  str_contains ROW_TERMINATOR c = true →
  load_loop (String c rest) counter g =
  if 80 <? counter then Ok (counter, g)
  else load_loop rest (next_row counter) g.
Proof.
  intros Ht. destruct (terminator_not_digit c Ht) as [Hd Hu].
  by rewrite load_loop_cons, Hd, Hu, Ht.
Qed.

Lemma load_loop_terminator_row_start c rest counter g :
  str_contains ROW_TERMINATOR c = true → counter mod 9 = 0 →
  load_loop (String c rest) counter g = load_loop rest counter g.
Proof.
  intros Ht Hm. rewrite load_loop_terminator by done.
  destruct (80 <? counter) eqn:Hb.
  - apply Nat.ltb_lt in Hb. by rewrite load_loop_break.
  - unfold next_row. by rewrite Hm.
Qed.

Lemma load_loop_terminators ts rest counter g :
  Forall (λ c, str_contains ROW_TERMINATOR c = true) ts →
  counter mod 9 = 0 →
  load_loop (foldr String rest ts) counter g = load_loop rest counter g.
Proof.
  intros Hts Hm. induction Hts as [|c ts Hc _ IH]; cbn [foldr]; [done|].
  by rewrite load_loop_terminator_row_start.
Qed.

(** C10.  A row terminator read while the counter is a multiple of 9 changes
    neither the counter nor the grid: the rest of the input is parsed as if
    the terminator were not there.  Hence a run of terminators acts as its
    first one alone, and terminators at the start of the input (counter 0)
    are skipped; no row of cells is ever skipped by them. *)
Theorem terminator_at_row_start :
  (∀ c rest counter g,
     str_contains ROW_TERMINATOR c = true → counter mod 9 = 0 →
     load_loop (String c rest) counter g = load_loop rest counter g) ∧
  (∀ c ts rest counter g,
     str_contains ROW_TERMINATOR c = true →
     Forall (λ c, str_contains ROW_TERMINATOR c = true) ts →
     load_loop (String c (foldr String rest ts)) counter g
     = load_loop (String c rest) counter g) ∧
  (∀ ts puzzle g,
     Forall (λ c, str_contains ROW_TERMINATOR c = true) ts →
     Grid_load g (foldr String puzzle ts) = Grid_load g puzzle).
Proof.
  split; [apply load_loop_terminator_row_start|]. split.
  - intros c ts rest counter g Hc Hts.
    rewrite !load_loop_terminator by done.
    destruct (80 <? counter); [done|].
    apply load_loop_terminators; [done|]. apply next_row_spec.
  - intros ts puzzle g Hts. unfold Grid_load.
    by rewrite load_loop_terminators.
Qed.

Lemma terminator_at_row_start_witness :
  str_contains ROW_TERMINATOR "010"%char = true ∧ 9 mod 9 = 0 ∧
  load_loop (String "010"%char "5") 9 Grid_init = load_loop "5" 9 Grid_init.
Proof.
  assert (str_contains ROW_TERMINATOR "010"%char = true) as Hc.
  { vm_compute. reflexivity. }
  assert (9 mod 9 = 0) as Hm by reflexivity.
  split; [exact Hc|]. split; [exact Hm|].
  exact (proj1 terminator_at_row_start "010"%char "5" 9 Grid_init Hc Hm).
Defined.

Lemma load_loop_counter puzzle counter g n g' :
  length (digits g) = 81 → counter ≤ 81 →
  load_loop puzzle counter g = Ok (n, g') →
  n ≤ 81 ∧ (n < 81 → counter + count_recognized puzzle ≤ n).
Proof.
  revert counter g.
  induction puzzle as [|c rest IH]; intros counter g Hlen Hc.
  - intros [= <- _]. simpl. lia.
  - rewrite load_loop_cons. cbn [count_recognized]. unfold recognized.
    destruct (80 <? counter) eqn:Hbreak.
    { apply Nat.ltb_lt in Hbreak. intros [= <- _]. lia. }
    apply Nat.ltb_ge in Hbreak.
    pose proof (next_row_bound counter Hbreak) as Hnr.
    pose proof (next_row_spec counter) as [_ Hnr'].
    destruct (str_contains "123456789" c) eqn:Hd; simpl.
    + destruct (lookup_lt_is_Some_2 (digits g) counter) as [d Hdg]; [lia|].
      rewrite (Digit_setSolvedValue_assign g counter d _ Hdg). simpl.
      intros Hrest. apply IH in Hrest; [lia|by rewrite set_v_length|lia].
    + destruct (str_contains UNKNOWN_DIGIT_INPUT c) eqn:Hu.
      * intros Hrest. apply IH in Hrest; [lia|done|lia].
      * destruct (str_contains ROW_TERMINATOR c).
        -- intros Hrest. apply IH in Hrest; [lia|done|lia].
        -- intros Hrest. apply IH in Hrest; [lia|done|lia].
Qed.

(** C6, as the code has it.  On a grid with its 81 digits the loop returns
    with a counter of at most 81, and of exactly 81 when the input holds at
    least 81 recognized characters (digits 1-9 or unknown markers); once the
    counter has passed 80 the rest of the input is ignored.  Before that, a
    digit assigns the digit at the counter and takes one slot, an unknown
    marker takes one slot, a row terminator only moves the counter to the
    next multiple of 9 (nowhere when it is one already), and any other
    character changes nothing. *)
Theorem load_consumes_at_most_81 :
  (∀ g puzzle, length (digits g) = 81 →
     ∃ n g', load_loop puzzle 0 g = Ok (n, g') ∧ n ≤ 81 ∧
             (81 ≤ count_recognized puzzle → n = 81)) ∧
  (∀ puzzle counter g,
     80 < counter → load_loop puzzle counter g = Ok (counter, g)) ∧
  (∀ c rest counter g,
     counter ≤ 80 → str_contains "123456789" c = true →
     load_loop (String c rest) counter g
     = g' ← Digit_setSolvedValue g counter (PChr c) false;
       load_loop rest (counter + 1) g') ∧
  (∀ c rest counter g,
     counter ≤ 80 → str_contains UNKNOWN_DIGIT_INPUT c = true →
     load_loop (String c rest) counter g = load_loop rest (counter + 1) g) ∧
  (∀ c rest counter g,
     counter ≤ 80 → str_contains ROW_TERMINATOR c = true →
     load_loop (String c rest) counter g = load_loop rest (next_row counter) g
     ∧ next_row counter mod 9 = 0
     ∧ counter ≤ next_row counter < counter + 9
     ∧ (counter mod 9 = 0 → next_row counter = counter)) ∧
  (∀ c rest counter g,
     counter ≤ 80 → recognized c = false →
     str_contains ROW_TERMINATOR c = false →
     load_loop (String c rest) counter g = load_loop rest counter g).
Proof.
  split.
  { intros g puzzle Hlen.
    destruct (load_loop_total puzzle 0 g Hlen) as (n & g' & Hn & _ & _); [lia|].
    exists n, g'. split; [done|].
    apply load_loop_counter in Hn; [|done|lia]. lia. }
  split; [apply load_loop_break|].
  split.
  { intros c rest counter g Hc%Nat.ltb_ge Hd.
    by rewrite load_loop_cons, Hc, Hd. }
  split.
  { intros c rest counter g Hc%Nat.ltb_ge Hu.
    destruct (unknown_not_terminator c Hu) as [Hd _].
    by rewrite load_loop_cons, Hc, Hd, Hu. }
  split.
  { intros c rest counter g Hc%Nat.ltb_ge Ht.
    rewrite load_loop_terminator, Hc by done. split; [done|].
    split; [apply next_row_spec|]. split; [apply next_row_spec|].
    intros Hm. unfold next_row. by rewrite Hm. }
  intros c rest counter g Hc%Nat.ltb_ge [Hd Hu]%orb_false_iff Ht.
  by rewrite load_loop_cons, Hc, Hd, Hu, Ht.
Qed.

Lemma load_consumes_at_most_81_witness :
  length (digits Grid_init) = 81 ∧
  ∃ n g', load_loop EXAMPLE_GRID 0 Grid_init = Ok (n, g') ∧ n ≤ 81 ∧
          (81 ≤ count_recognized EXAMPLE_GRID → n = 81).
Proof.
  assert (length (digits Grid_init) = 81) as H.
  { vm_compute. reflexivity. }
  split; [exact H|].
  exact (proj1 load_consumes_at_most_81 Grid_init EXAMPLE_GRID H).
Defined.

(** C6, as stated, fails: [load] does not always consume 81 slots.  Five
    digits leave the counter at 5. *)
Lemma load_short_input :
  load_counter Grid_init "12345" = Some 5 ∧
  ¬ (∀ puzzle, load_counter Grid_init puzzle = Some 81).
Proof.
  assert (load_counter Grid_init "12345" = Some 5) as H.
  { vm_compute. reflexivity. }
  split; [exact H|]. intros Hall. rewrite Hall in H. discriminate H.
Qed.

(** ** Termination of the solve loop *)

Lemma filter_length_Forall {A} (P : A → Prop) `{∀ x, Decision (P x)}
    (l : list A) :
  length (filter P l) = length l → Forall P l.
Proof.
  induction l as [|x l IH]; [constructor|].
  destruct (decide (P x)) as [Hx|Hx].
  - rewrite filter_cons_True by done. simpl. intros [= Hl]. auto.
  - rewrite filter_cons_False by done. simpl. intros Hl.
    pose proof (length_filter P l). lia.
Qed.

(** With no digit solved there is nothing to propagate. *)
Lemma Grid_propagate_all_unsolved g :
  Grid_number_unsolved g = length (digits g) → Grid_propagate_all g = Ok g.
Proof.
  rewrite Grid_number_unsolved_count. unfold count_unsolved.
  intros Hall%filter_length_Forall.
  destruct (for_each_total (λ t, t = g) (seq 0 (length (digits g)))
              (λ i g, Digit_propagate g i) g) as (g' & Hg' & ->); [|done|done].
  intros i t [_ Hi]%elem_of_seq ->.
  apply lookup_lt_is_Some in Hi as [d Hd]. exists g. split; [|done].
  apply (Digit_propagate_unsolved g i d Hd).
  apply (Forall_lookup_1 _ _ _ _ Hall Hd).
Qed.

Lemma Grid_solved_true g : Grid_solved g = true ↔ Grid_number_unsolved g = 0.
Proof. unfold Grid_solved. rewrite bool_decide_eq_true. lia. Qed.

(** Started at [it = k] with [n] digits unsolved, the loop stops by its own
    tests at some [it ≤ k + n], unless its range of [m] values is used up
    first, which takes [m ≤ n]. *)
Lemma solve_loop_bound m k g :
  well_formed g → numeric g →
  ∃ o, solve_loop (seq k m) g = Ok o ∧
       (stopped_within k (k + Grid_number_unsolved g) o ∨
        (ran_out o ∧ m ≤ Grid_number_unsolved g)).
Proof.
  revert k g. induction m as [|m IH]; intros k g Hwf Hnum; simpl.
  - eexists. split; [done|]. right. split; [done|lia].
  - destruct (Grid_solved g) eqn:Hsolved.
    { eexists. split; [done|]. left. simpl. lia. }
    assert (Grid_number_unsolved g ≠ 0) as Hpos.
    { intros H%Grid_solved_true. congruence. }
    destruct (Grid_propagate_all_total g Hwf Hnum) as (g' & Hg' & Hwf' & Hnum').
    rewrite Hg'. simpl.
    pose proof (grid_narrows_unsolved g g' (Grid_propagate_all_narrows g g' Hg'))
      as Hle.
    case_decide as Hstall.
    { eexists. split; [done|]. left. simpl. lia. }
    destruct (IH (S k) g' Hwf' Hnum') as (o & Ho & Hbound).
    exists o. split; [done|].
    destruct Hbound as [Hstop|[Hout Hm]].
    + left. destruct o; simpl in *; lia.
    + right. split; [done|lia].
Qed.

(** C8.  Every puzzle loads into a grid of the program whose candidates are
    integers or digit characters.  On such a grid the solve loop returns for
    every iteration cap: it stops because the grid is solved or stalled at an
    iteration [it] between 1 and 81, unless the cap ends it earlier, which
    can only happen when the cap allows at most 80 iterations.  The reason is
    that a pass that changes the unsolved count lowers it by at least 1. *)
Theorem solve_loop_terminates :
  (∀ puzzle, ∃ g, Grid_load Grid_init puzzle = Ok g ∧
                  well_formed g ∧ numeric g) ∧
  (∀ g max_iterations, well_formed g → numeric g →
     ∃ o, solve max_iterations g = Ok o ∧
          (stopped_within 1 81 o ∨ (ran_out o ∧ max_iterations - 1 ≤ 80))) ∧
  (∀ g g', Grid_propagate_all g = Ok g' →
     Grid_number_unsolved g' ≠ Grid_number_unsolved g →
     Grid_number_unsolved g' + 1 ≤ Grid_number_unsolved g).
Proof.
  split.
  { intros puzzle. exists (load_fresh puzzle).
    destruct (load_fresh_Ok puzzle) as (Hload & Hwf & Hnum & _). done. }
  split.
  - intros g cap Hwf Hnum. unfold solve.
    pose proof (well_formed_length g Hwf) as Hlen.
    pose proof (count_unsolved_bound (digits g)) as Hbound.
    rewrite <- Grid_number_unsolved_count, Hlen in Hbound.
    destruct (decide (Grid_number_unsolved g = 81)) as [Hall|Hsome].
    + destruct (cap - 1) as [|m] eqn:Hcap; simpl.
      { eexists. split; [done|]. right. split; [done|lia]. }
      assert (Grid_solved g = false) as ->.
      { apply not_true_iff_false. intros H%Grid_solved_true. lia. }
      rewrite Grid_propagate_all_unsolved by lia. simpl.
      rewrite decide_True by done.
      eexists. split; [done|]. left. simpl. lia.
    + destruct (solve_loop_bound (cap - 1) 1 g Hwf Hnum) as (o & Ho & Hb).
      exists o. split; [done|].
      destruct Hb as [Hstop|[Hout Hm]].
      * left. destruct o; simpl in *; lia.
      * right. split; [done|lia].
  - intros g g' Hg' Hne.
    pose proof (grid_narrows_unsolved g g' (Grid_propagate_all_narrows g g' Hg')).
    lia.
Qed.

Lemma solve_loop_terminates_witness :
  well_formed example_loaded ∧ numeric example_loaded ∧
  ∃ o, solve MAX_ITERATIONS example_loaded = Ok o ∧
       (stopped_within 1 81 o ∨ (ran_out o ∧ MAX_ITERATIONS - 1 ≤ 80)).
Proof.
  assert (well_formed example_loaded) as Hwf.
  { split; vm_compute; reflexivity. }
  assert (numeric example_loaded) as Hnum.
  { apply (bool_decide_unpack _). vm_compute. exact I. }
  split; [exact Hwf|]. split; [exact Hnum|].
  exact (proj1 (proj2 solve_loop_terminates)
           example_loaded MAX_ITERATIONS Hwf Hnum).
Defined.

(** ** One solved digit per value in a group *)

Lemma solved_value_Some g i n :
  solved_value g i = Some n ↔
  ∃ d x, digits g !! i = Some d ∧ v d = {[ x ]} ∧ py_int x = Ok n.
Proof.
  unfold solved_value. split.
  - destruct (digits g !! i) as [d|]; [|done].
    destruct (Digit_solved d) eqn:Hs; [|done].
    destruct (Digit_getSolvedValue d) as [[z|c|]|e] eqn:Hv; try done.
    intros [= ->].
    destruct (Digit_getSolvedValue_Ok d _ Hs Hv) as (x & m & Hx & Hm & [= ->]).
    by exists d, x.
  - intros (d & x & -> & Hx & Hn).
    assert (Digit_solved d = true) as -> by (apply Digit_solved_singleton; eauto).
    by rewrite (Digit_getSolvedValue_singleton d x Hx), Hn.
Qed.










(** Every digit of a loaded grid is as it was or holds the one digit
    character assigned to it. *)
Lemma Grid_load_digits g puzzle g' i d' :
  Grid_load g puzzle = Ok g' → digits g' !! i = Some d' →
  digits g !! i = Some d' ∨
  ∃ c, str_contains "123456789" c = true ∧ v d' = {[ PChr c ]}.
Proof.
  intros Hload. revert i d'.
  apply (Grid_load_inv
    (λ t, ∀ i d', digits t !! i = Some d' →
       digits g !! i = Some d' ∨
       ∃ c, str_contains "123456789" c = true ∧ v d' = {[ PChr c ]})
    g puzzle g'); [| |by left|done].
  - intros t j c Ht Hc i d'. rewrite set_v_lookup.
    destruct (digits t !! i) as [d|] eqn:Hd; [|done].
    intros [= <-]. case_decide; simpl; [right; eauto|by apply Ht].
  - intros t Ht. exact Ht.
Qed.








(** * Further properties of the code *)

(** ** The exact effect of [Digit.propagate] *)

Lemma steps_collapse h1 h2 h3 value d :
  step h3 value (step h2 value (step h1 value d))
  = if h1 || h2 || h3 then discard_unsolved value d else d.
Proof.
  destruct h1, h2, h3; simpl; by rewrite ?discard_unsolved_idemp.
Qed.

Lemma Grid_init_groups_NoDup :
  NoDup (rows Grid_init) ∧ NoDup (cols Grid_init) ∧ NoDup (boxes Grid_init).
Proof. apply (bool_decide_unpack _). vm_compute. exact I. Qed.

(** A member of one of the groups of a digit carries the same reference. *)
Lemma member_peers g c d r cl b p dp :
  well_formed g → digits g !! c = Some d → groups_of g c d r cl b →
  digits g !! p = Some dp →
  p ∈ group_digits r ∨ p ∈ group_digits cl ∨ p ∈ group_digits b →
  peers d dp.
Proof.
  intros Hwf Hd Hg Hdp Hin.
  destruct (well_formed_refs g c d Hwf Hd) as (_ & _ & Hr & Hc & Hb).
  destruct (well_formed_refs g p dp Hwf Hdp) as (_ & _ & Hpr & Hpc & Hpb).
  destruct Grid_init_members_back as (Brows & Bcols & Bboxes).
  destruct Grid_init_groups_NoDup as (Nrows & Ncols & Nboxes).
  rewrite Forall_forall in Brows. rewrite Forall_forall in Bcols.
  rewrite Forall_forall in Bboxes.
  pose proof (go_row _ _ _ _ _ _ Hg) as Hrow.
  pose proof (go_col _ _ _ _ _ _ Hg) as Hcol.
  pose proof (go_box _ _ _ _ _ _ Hg) as Hbox.
  rewrite (wf_rows g Hwf), Hr in Hrow. rewrite (wf_cols g Hwf), Hc in Hcol.
  rewrite (wf_boxes g Hwf), Hb in Hbox.
  unfold peers. rewrite Hr, Hc, Hb, Hpr, Hpc, Hpb.
  destruct Hin as [Hin|[Hin|Hin]].
  - left. specialize (Brows r (list_elem_of_lookup_2 _ _ _ Hrow)).
    rewrite Forall_forall in Brows.
    exact (NoDup_lookup _ _ _ _ Nrows (Brows p Hin) Hrow).
  - right; left. specialize (Bcols cl (list_elem_of_lookup_2 _ _ _ Hcol)).
    rewrite Forall_forall in Bcols.
    exact (NoDup_lookup _ _ _ _ Ncols (Bcols p Hin) Hcol).
  - right; right. specialize (Bboxes b (list_elem_of_lookup_2 _ _ _ Hbox)).
    rewrite Forall_forall in Bboxes.
    exact (NoDup_lookup _ _ _ _ Nboxes (Bboxes p Hin) Hbox).
Qed.

Lemma peers_member_eq g c d r cl b p dp :
  well_formed g → digits g !! c = Some d → groups_of g c d r cl b →
  digits g !! p = Some dp →
  bool_decide (p ∈ group_digits r) || bool_decide (p ∈ group_digits cl)
  || bool_decide (p ∈ group_digits b) = bool_decide (peers d dp).
Proof.
  intros Hwf Hd Hg Hdp. destruct (bool_decide (peers d dp)) eqn:Hpeers.
  - apply bool_decide_eq_true in Hpeers.
    by apply (peers_member g c d r cl b p dp).
  - apply bool_decide_eq_false in Hpeers. apply not_true_iff_false.
    intros Hin. apply Hpeers.
    apply (member_peers g c d r cl b p dp Hwf Hd Hg Hdp).
    rewrite !orb_true_iff, !bool_decide_eq_true in Hin. tauto.
Qed.

Lemma Digit_propagate_solved_exact g c d value :
  well_formed g → digits g !! c = Some d →
  Digit_solved d = true → Digit_getSolvedValue d = Ok value →
  ∃ g', Digit_propagate g c = Ok g' ∧
    rows g' = rows g ∧ cols g' = cols g ∧ boxes g' = boxes g ∧
    loaded g' = loaded g ∧ length (digits g') = length (digits g) ∧
    ∀ p dp, digits g !! p = Some dp →
      digits g' !! p
      = Some (if bool_decide (peers d dp) && negb (Digit_solved dp)
              then with_v (v dp ∖ {[ value ]}) dp else dp).
Proof.
  intros Hwf Hd Hs Hv.
  destruct (Digit_getSolvedValue_Ok d value Hs Hv) as (x & n & Hx & Hn & ->).
  destruct (well_formed_groups g c d Hwf Hd) as (r & cl & b & Hg).
  rewrite (Digit_propagate_spec g c d x n r cl b Hd Hx Hn Hg).
  eexists. split; [done|]. simpl. do 4 (split; [done|]).
  split; [unfold propagated; by rewrite !length_eliminate|].
  intros p dp Hdp. rewrite propagated_lookup, Hdp. simpl. f_equal.
  rewrite steps_collapse, (peers_member_eq g c d r cl b p dp Hwf Hd Hg Hdp).
  unfold discard_unsolved.
  by destruct (bool_decide (peers d dp)), (Digit_solved dp).
Qed.

(** X1.  [Digit.propagate] on a digit that is not solved changes nothing.  On
    a digit solved with [value] it returns a grid with the same groups in
    which exactly the unsolved digits of its row, column and box have lost
    [value] (if they had it); the digit itself, every solved digit and every
    digit outside its three groups are as before. *)
Theorem Digit_propagate_effect g c d :
  well_formed g → digits g !! c = Some d →
  (Digit_solved d = false → Digit_propagate g c = Ok g) ∧
  (∀ value,
     Digit_solved d = true → Digit_getSolvedValue d = Ok value →
     ∃ g', Digit_propagate g c = Ok g' ∧
       rows g' = rows g ∧ cols g' = cols g ∧ boxes g' = boxes g ∧
       loaded g' = loaded g ∧ length (digits g') = length (digits g) ∧
       ∀ p dp, digits g !! p = Some dp →
         digits g' !! p
         = Some (if bool_decide (peers d dp) && negb (Digit_solved dp)
                 then with_v (v dp ∖ {[ value ]}) dp else dp)).
Proof.
  intros Hwf Hd. split.
  - apply (Digit_propagate_unsolved g c d Hd).
  - intros value Hs Hv. by apply Digit_propagate_solved_exact.
Qed.

Lemma Digit_propagate_effect_witness :
  well_formed example_loaded ∧
  ∃ g', Digit_propagate example_loaded 2 = Ok g' ∧
    rows g' = rows example_loaded ∧ cols g' = cols example_loaded ∧
    boxes g' = boxes example_loaded ∧ loaded g' = loaded example_loaded ∧
    length (digits g') = length (digits example_loaded) ∧
    ∀ p dp, digits example_loaded !! p = Some dp →
      digits g' !! p
      = Some (if bool_decide (peers (digit_at example_loaded 2) dp)
                 && negb (Digit_solved dp)
              then with_v (v dp ∖ {[ PInt 6 ]}) dp else dp).
Proof.
  assert (well_formed example_loaded) as Hwf.
  { split; vm_compute; reflexivity. }
  assert (digits example_loaded !! 2 = Some (digit_at example_loaded 2)) as Hd.
  { apply digit_at_lookup. vm_compute. reflexivity. }
  assert (Digit_solved (digit_at example_loaded 2) = true) as Hs.
  { vm_compute. reflexivity. }
  assert (Digit_getSolvedValue (digit_at example_loaded 2) = Ok (PInt 6))
    as Hv.
  { vm_compute. reflexivity. }
  split; [exact Hwf|].
  exact (proj2 (Digit_propagate_effect example_loaded 2
                  (digit_at example_loaded 2) Hwf Hd) (PInt 6) Hs Hv).
Defined.

(** ** Assigning and propagating in one call *)

Lemma bind_Ok_l {A B} (a : A) (f : A → result B) : Ok a ≫= f = f a.
Proof. done. Qed.

Lemma Digit_setSolvedValue_propagate g i d myvalue :
  digits g !! i = Some d →
  Digit_setSolvedValue g i myvalue true
  = Digit_propagate (set_v g i {[ myvalue ]}) i.
Proof.
  intros Hd. unfold Digit_setSolvedValue.
  rewrite (get_digit_lookup g i d Hd). simpl. by rewrite union_empty_r_L.
Qed.

Lemma peers_with_v s d dp :
  bool_decide (peers (with_v s d) dp) = bool_decide (peers d dp).
Proof. done. Qed.

(** X2.  [setSolvedValue(myvalue, propagate=True)] on a grid of the program:
    when [int(myvalue)] is [n], the call returns, the digit holds the single
    candidate [myvalue], every unsolved digit of its row, column and box has
    lost [n], and all other digits are as before; when [int(myvalue)] raises,
    the call raises the same exception. *)
Theorem assign_and_propagate g i d myvalue :
  well_formed g → digits g !! i = Some d →
  (∀ n, py_int myvalue = Ok n →
     ∃ g', Digit_setSolvedValue g i myvalue true = Ok g' ∧
       digits g' !! i = Some (with_v {[ myvalue ]} d) ∧
       ∀ p dp, p ≠ i → digits g !! p = Some dp →
         digits g' !! p
         = Some (if bool_decide (peers d dp) && negb (Digit_solved dp)
                 then with_v (v dp ∖ {[ PInt n ]}) dp else dp)) ∧
  (∀ e, py_int myvalue = Raise e →
     Digit_setSolvedValue g i myvalue true = Raise e).
Proof.
  intros Hwf Hd. rewrite (Digit_setSolvedValue_propagate g i d myvalue Hd).
  set (g1 := set_v g i {[ myvalue ]}). set (d1 := with_v {[ myvalue ]} d).
  assert (well_formed g1) as Hwf1 by by apply set_v_well_formed.
  assert (digits g1 !! i = Some d1) as Hd1.
  { unfold g1. rewrite set_v_lookup, Hd. simpl. by rewrite decide_True. }
  assert (Digit_solved d1 = true) as Hs1.
  { apply Digit_solved_singleton. by exists myvalue. }
  assert (Digit_getSolvedValue d1 = n ← py_int myvalue; Ok (PInt n)) as Hv1.
  { by apply Digit_getSolvedValue_singleton. }
  split.
  - intros n Hn. rewrite Hn in Hv1. simpl in Hv1.
    destruct (Digit_propagate_solved_exact g1 i d1 (PInt n) Hwf1 Hd1 Hs1 Hv1)
      as (g' & Hg' & _ & _ & _ & _ & _ & Hdigits).
    exists g'. split; [done|]. split.
    + rewrite (Hdigits i d1 Hd1), Hs1. by rewrite andb_false_r.
    + intros p dp Hp Hdp. rewrite (Hdigits p dp).
      * unfold d1. by rewrite peers_with_v.
      * unfold g1. rewrite set_v_lookup, Hdp. simpl. by rewrite decide_False.
  - intros e He. rewrite He in Hv1. simpl in Hv1.
    destruct (well_formed_groups g1 i d1 Hwf1 Hd1) as (r & c & b & Hg).
    unfold Digit_propagate.
    rewrite (get_digit_lookup g1 i d1 Hd1), bind_Ok_l, Hs1.
    by rewrite (get_group_lookup _ _ _ (go_row _ _ _ _ _ _ Hg)), bind_Ok_l, Hv1.
Qed.

Lemma assign_and_propagate_witness :
  well_formed Grid_init ∧
  ∃ g', Digit_setSolvedValue Grid_init 40 (PChr "7") true = Ok g' ∧
    digits g' !! 40 = Some (with_v {[ PChr "7" ]} (digit_at Grid_init 40)) ∧
    ∀ p dp, p ≠ 40 → digits Grid_init !! p = Some dp →
      digits g' !! p
      = Some (if bool_decide (peers (digit_at Grid_init 40) dp)
                 && negb (Digit_solved dp)
              then with_v (v dp ∖ {[ PInt 7 ]}) dp else dp).
Proof.
  assert (well_formed Grid_init) as Hwf.
  { split; vm_compute; reflexivity. }
  assert (digits Grid_init !! 40 = Some (digit_at Grid_init 40)) as Hd.
  { apply digit_at_lookup. vm_compute. reflexivity. }
  assert (py_int (PChr "7") = Ok 7%Z) as Hn.
  { vm_compute. reflexivity. }
  split; [exact Hwf|].
  exact (proj1 (assign_and_propagate Grid_init 40 (digit_at Grid_init 40)
                  (PChr "7") Hwf Hd) 7%Z Hn).
Defined.

(** ** A grid with nothing left to propagate *)

Lemma Grid_eq g g' :
  digits g' = digits g → rows g' = rows g → cols g' = cols g →
  boxes g' = boxes g → loaded g' = loaded g → g' = g.
Proof. destruct g, g'. simpl. by intros -> -> -> -> ->. Qed.

Lemma Digit_propagate_fixpoint g i :
  well_formed g → numeric g → fully_propagated g →
  i < length (digits g) → Digit_propagate g i = Ok g.
Proof.
  intros Hwf Hnum Hfull [d Hd]%lookup_lt_is_Some.
  destruct (Digit_solved d) eqn:Hs;
    [|by apply (Digit_propagate_unsolved g i d)].
  destruct (proj1 (Digit_solved_singleton d) Hs) as [x Hx].
  destruct (numeric_lookup g i d x Hnum Hd) as [n Hn].
  { rewrite Hx. by apply elem_of_singleton. }
  assert (Digit_getSolvedValue d = Ok (PInt n)) as Hv.
  { by rewrite (Digit_getSolvedValue_singleton d x Hx), Hn. }
  destruct (Digit_propagate_solved_exact g i d (PInt n) Hwf Hd Hs Hv)
    as (g' & -> & Hr & Hc & Hb & Hl & Hlen & Hdigits).
  f_equal. apply Grid_eq; try done.
  apply list_eq. intros p. destruct (digits g !! p) as [dp|] eqn:Hdp.
  - rewrite (Hdigits p dp Hdp). f_equal.
    destruct (bool_decide (peers d dp)) eqn:Hpeers; [|done].
    destruct (Digit_solved dp) eqn:Hsp; [done|]. simpl.
    apply bool_decide_eq_true in Hpeers.
    pose proof (Hfull i d (PInt n) p dp Hd Hs Hv Hdp Hpeers Hsp) as Hnotin.
    assert (v dp ∖ {[ PInt n ]} = v dp) as ->; [|apply with_v_id].
    apply set_eq. intros y. rewrite elem_of_difference, elem_of_singleton.
    split; [tauto|]. intros Hy. split; [done|]. by intros ->.
  - apply lookup_ge_None in Hdp. rewrite <- Hlen in Hdp.
    by apply lookup_ge_None.
Qed.

Lemma fully_propagated_check g :
  Forall (λ d,
    Forall (λ dp,
      Digit_solved d = false ∨ ¬ peers d dp ∨ Digit_solved dp = true
      ∨ ∀ value, value ∈ v dp → Digit_getSolvedValue d ≠ Ok value)
      (digits g))
    (digits g) →
  fully_propagated g.
Proof.
  intros H c d value p dp Hd Hs Hv Hdp Hpeers Hsp Hin.
  pose proof (Forall_lookup_1 _ _ _ _ H Hd) as H'. simpl in H'.
  pose proof (Forall_lookup_1 _ _ _ _ H' Hdp) as [?|[?|[?|Hout]]];
    [congruence|done|congruence|].
  by apply (Hout value).
Qed.

(** X3.  On a grid of the program with integer or digit-character candidates
    where no unsolved digit has the value of a solved digit of its row,
    column or box among its candidates, [propagate_all()] returns the grid
    unchanged. *)
Theorem propagate_all_fixpoint g :
  well_formed g → numeric g → fully_propagated g →
  Grid_propagate_all g = Ok g.
Proof.
  intros Hwf Hnum Hfull. unfold Grid_propagate_all.
  destruct (for_each_total (λ t, t = g) (seq 0 (length (digits g)))
              (λ i g, Digit_propagate g i) g) as (g' & Hg' & ->); [|done|done].
  intros i t [_ Hi]%elem_of_seq ->. exists g. split; [|done].
  by apply Digit_propagate_fixpoint.
Qed.

Lemma propagate_all_fixpoint_witness :
  well_formed single_given ∧ numeric single_given ∧
  Grid_number_unsolved single_given = 80 ∧
  Grid_propagate_all single_given = Ok single_given.
Proof.
  assert (well_formed single_given) as Hwf.
  { split; vm_compute; reflexivity. }
  assert (numeric single_given) as Hnum.
  { apply (bool_decide_unpack _). vm_compute. exact I. }
  assert (fully_propagated single_given) as Hfull.
  { apply fully_propagated_check, (bool_decide_unpack _).
    vm_compute. exact I. }
  split; [exact Hwf|]. split; [exact Hnum|].
  split; [vm_compute; reflexivity|].
  exact (propagate_all_fixpoint single_given Hwf Hnum Hfull).
Defined.

(** ** What the solve loop returns *)



Lemma solve_loop_outcome its g o :
  solve_loop its g = Ok o →
  grid_narrows g (outcome_grid o) ∧
  match o with
  | Solved _ g' => Grid_solved g' = true
  | Stalled _ g' => Grid_solved g' = false
  | Exhausted _ => True
  end.
Proof.
  revert g. induction its as [|it its IH]; intros g; simpl.
  - by intros [= <-].
  - destruct (Grid_solved g) eqn:Hsolved; [by intros [= <-]|].
    intros (g' & Hg' & Hrest)%bind_Ok.
    pose proof (Grid_propagate_all_narrows g g' Hg') as Hn.
    case_decide as Hstall.
    + injection Hrest as <-. simpl. split; [done|].
      apply not_true_iff_false. intros H%Grid_solved_true.
      apply not_true_iff_false in Hsolved. apply Hsolved, Grid_solved_true.
      congruence.
    + destruct (IH g' Hrest) as [Hn' Ho]. split; [by etrans|done].
Qed.



(** ** The solver never contradicts a completed grid *)




(** ** Nothing to propagate *)

(** X6.  When no digit of a grid is solved, [propagate_all()] returns the
    grid unchanged, and the solve loop (with a cap that allows one
    iteration) stops in its first iteration with a stall. *)
Theorem nothing_solved_stalls g :
  Grid_number_unsolved g = length (digits g) →
  Grid_propagate_all g = Ok g ∧
  (∀ max_iterations,
     digits g ≠ [] → 2 ≤ max_iterations →
     solve max_iterations g = Ok (Stalled 1 g)).
Proof.
  intros Hall. pose proof (Grid_propagate_all_unsolved g Hall) as Hsame.
  split; [done|]. intros cap Hne Hcap. unfold solve.
  destruct (cap - 1) as [|m] eqn:Hm; [lia|]. simpl.
  assert (Grid_solved g = false) as ->.
  { apply not_true_iff_false. intros H%Grid_solved_true.
    rewrite H in Hall. destruct (digits g); [done|discriminate]. }
  rewrite Hsame. simpl. by rewrite decide_True.
Qed.

Lemma nothing_solved_stalls_witness :
  Grid_number_unsolved Grid_init = length (digits Grid_init) ∧
  Grid_propagate_all Grid_init = Ok Grid_init.
Proof.
  assert (Grid_number_unsolved Grid_init = length (digits Grid_init)) as H.
  { vm_compute. reflexivity. }
  split; [exact H|]. exact (proj1 (nothing_solved_stalls Grid_init H)).
Defined.

(** ** More on [Grid.load] *)

Lemma load_loop_no_digit puzzle counter g :
  has_known_digit puzzle = false →
  ∃ n, load_loop puzzle counter g = Ok (n, g).
Proof.
  revert counter. induction puzzle as [|c rest IH]; intros counter.
  - by exists counter.
  - cbn [has_known_digit]. intros [Hc Hrest]%orb_false_iff.
    rewrite load_loop_cons, Hc. destruct (80 <? counter); [by eexists|].
    destruct (str_contains UNKNOWN_DIGIT_INPUT c); [by apply IH|].
    destruct (str_contains ROW_TERMINATOR c); by apply IH.
Qed.

(** X7.  Loading a puzzle that holds none of the digits 1-9 (only unknown
    markers, row terminators and other characters, or nothing at all)
    changes no digit of the grid, whatever the grid held before: unknown
    markers do not reset a cell.  Only the flag [loaded] is set. *)
Theorem load_without_digits g puzzle :
  has_known_digit puzzle = false →
  Grid_load g puzzle
  = Ok (mkGrid (digits g) (rows g) (cols g) (boxes g) true).
Proof.
  intros Hp. unfold Grid_load.
  destruct (load_loop_no_digit puzzle 0 g Hp) as [n ->]. done.
Qed.

Lemma load_without_digits_witness :
  has_known_digit ".. -_0 x" = false ∧
  Grid_load example_loaded ".. -_0 x"
  = Ok (mkGrid (digits example_loaded) (rows example_loaded)
          (cols example_loaded) (boxes example_loaded) true).
Proof.
  assert (has_known_digit ".. -_0 x" = false) as H.
  { vm_compute. reflexivity. }
  split; [exact H|]. exact (load_without_digits example_loaded _ H).
Defined.

(** X8.  On a grid of the program [load] returns for every input string.
    The result is again a grid of the program with [loaded] set; each of its
    digits is the digit that was there before, or holds as its only
    candidate one of the characters "1" to "9"; and the number of unsolved
    digits has not grown. *)
Theorem load_effect g puzzle :
  well_formed g →
  ∃ g', Grid_load g puzzle = Ok g' ∧ well_formed g' ∧ loaded g' = true ∧
    (∀ i d', digits g' !! i = Some d' →
       digits g !! i = Some d' ∨
       ∃ c, str_contains "123456789" c = true ∧ v d' = {[ PChr c ]}) ∧
    Grid_number_unsolved g' ≤ Grid_number_unsolved g.
Proof.
  intros Hwf.
  destruct (Grid_load_total g puzzle Hwf) as (g' & Hg' & Hwf' & _).
  exists g'. split; [done|]. split; [done|].
  assert (∀ i d', digits g' !! i = Some d' →
            digits g !! i = Some d' ∨
            ∃ c, str_contains "123456789" c = true ∧ v d' = {[ PChr c ]})
    as Hdigits.
  { intros i d'. by apply (Grid_load_digits g puzzle g'). }
  split.
  { unfold Grid_load in Hg'.
    apply bind_Ok in Hg' as ([n t] & _ & [= <-]). done. }
  split; [done|].
  rewrite !Grid_number_unsolved_count. apply count_unsolved_le.
  apply Forall2_same_length_lookup_2.
  - by rewrite (well_formed_length g Hwf), (well_formed_length g' Hwf').
  - intros i d d' Hd Hd' Hs.
    destruct (Hdigits i d' Hd') as [Hsame|(c & _ & Hc)]; [congruence|].
    apply Digit_solved_singleton. eauto.
Qed.

Lemma load_effect_witness :
  well_formed example_loaded ∧
  ∃ g', Grid_load example_loaded "987" = Ok g' ∧ well_formed g' ∧
    loaded g' = true ∧
    (∀ i d', digits g' !! i = Some d' →
       digits example_loaded !! i = Some d' ∨
       ∃ c, str_contains "123456789" c = true ∧ v d' = {[ PChr c ]}) ∧
    Grid_number_unsolved g' ≤ Grid_number_unsolved example_loaded.
Proof.
  assert (well_formed example_loaded) as Hwf.
  { split; vm_compute; reflexivity. }
  split; [exact Hwf|]. exact (load_effect example_loaded "987" Hwf).
Defined.

(** The loop started with the counter at [m] leaves the digits below [m]
    alone. *)
Lemma load_loop_frame puzzle counter g n g' i :
  load_loop puzzle counter g = Ok (n, g') → i < counter →
  digits g' !! i = digits g !! i.
Proof.
  revert counter g. induction puzzle as [|c rest IH]; intros counter g.
  - by intros [= _ <-].
  - rewrite load_loop_cons. pose proof (next_row_spec counter) as [_ Hnr].
    destruct (80 <? counter); [by intros [= _ <-]|].
    destruct (str_contains "123456789" c).
    + intros (t & Ht & Hrest)%bind_Ok Hi.
      unfold Digit_setSolvedValue in Ht.
      apply bind_Ok in Ht as (d & _ & [= <-]).
      rewrite (IH _ _ Hrest) by lia. rewrite set_v_lookup.
      rewrite decide_False by lia. by destruct (digits g !! i).
    + destruct (str_contains UNKNOWN_DIGIT_INPUT c).
      { intros Hrest Hi. apply (IH _ _ Hrest). lia. }
      destruct (str_contains ROW_TERMINATOR c).
      * intros Hrest Hi. apply (IH _ _ Hrest). lia.
      * intros Hrest Hi. by apply (IH _ _ Hrest).
Qed.

Lemma load_loop_again puzzle counter g n g1 :
  load_loop puzzle counter g = Ok (n, g1) →
  ∀ h, digits h = digits g1 → load_loop puzzle counter h = Ok (n, h).
Proof.
  revert counter g. induction puzzle as [|c rest IH]; intros counter g.
  - by intros [= <- _] h _.
  - rewrite !load_loop_cons.
    destruct (80 <? counter) eqn:Hbreak.
    { intros [= <- _] h _. by rewrite load_loop_cons, Hbreak. }
    destruct (str_contains "123456789" c) eqn:Hc.
    + intros (t & Ht & Hrest)%bind_Ok h Hh.
      unfold Digit_setSolvedValue in Ht.
      apply bind_Ok in Ht as (d & Hd%get_digit_Ok & [= <-]).
      rewrite union_empty_r_L in Hrest.
      assert (digits h !! counter = Some (with_v {[ PChr c ]} d)) as Hhd.
      { rewrite Hh, (load_loop_frame _ _ _ _ _ counter Hrest) by lia.
        rewrite set_v_lookup, Hd. simpl. by rewrite decide_True. }
      rewrite load_loop_cons, Hbreak, Hc.
      rewrite (Digit_setSolvedValue_assign h counter _ _ Hhd), bind_Ok_l.
      pose proof (set_v_same h counter (with_v {[ PChr c ]} d) Hhd) as Hsame.
      simpl in Hsame. rewrite Hsame. by apply (IH _ _ Hrest).
    + intros Hrest h Hh. rewrite load_loop_cons, Hbreak, Hc.
      destruct (str_contains UNKNOWN_DIGIT_INPUT c);
        [by apply (IH _ _ Hrest)|].
      destruct (str_contains ROW_TERMINATOR c); by apply (IH _ _ Hrest).
Qed.

(** X9.  Loading is idempotent: loading the same puzzle a second time into
    the grid it produced returns that grid unchanged. *)
Theorem load_idempotent g puzzle g1 :
  Grid_load g puzzle = Ok g1 → Grid_load g1 puzzle = Ok g1.
Proof.
  unfold Grid_load. intros ([n t] & Ht & [= <-])%bind_Ok.
  rewrite (load_loop_again puzzle 0 g n t Ht
             (mkGrid (digits t) (rows t) (cols t) (boxes t) true)) by done.
  done.
Qed.

Lemma load_idempotent_witness :
  Grid_load Grid_init EXAMPLE_GRID = Ok example_loaded ∧
  Grid_load example_loaded EXAMPLE_GRID = Ok example_loaded.
Proof.
  assert (Grid_load Grid_init EXAMPLE_GRID = Ok example_loaded) as H.
  { apply (load_fresh_Ok EXAMPLE_GRID). }
  split; [exact H|].
  exact (load_idempotent Grid_init EXAMPLE_GRID example_loaded H).
Defined.

(** ** Printing a grid *)

Lemma str_app_cons c s t : String c s +:+ t = String c (s +:+ t).
Proof. done. Qed.

Lemma str_app_nil_r s : s +:+ "" = s.
Proof. induction s as [|c s IH]; [done|]. by rewrite str_app_cons, IH. Qed.

Lemma str_app_assoc s t u : (s +:+ t) +:+ u = s +:+ (t +:+ u).
Proof. induction s as [|c s IH]; [done|]. by rewrite !str_app_cons, IH. Qed.

Lemma pretty_digit (n : Z) :
  (1 ≤ n ≤ 9)%Z →
  pretty n = String (digit_char n) "" ∧
  str_contains "123456789" (digit_char n) = true ∧
  py_int (PChr (digit_char n)) = Ok n.
Proof.
  intros Hn.
  assert (n = 1 ∨ n = 2 ∨ n = 3 ∨ n = 4 ∨ n = 5 ∨ n = 6 ∨ n = 7 ∨ n = 8
          ∨ n = 9)%Z as Hcases by lia.
  repeat (destruct Hcases as [->|Hcases]; [by vm_compute|]).
  subst n. by vm_compute.
Qed.

Lemma printable_digit_solved d :
  printable_digit d = true → Digit_solved d = true →
  ∃ n, (1 ≤ n ≤ 9)%Z ∧ Digit_getSolvedValue d = Ok (PInt n) ∧
       cell_char d = digit_char n.
Proof.
  unfold printable_digit, cell_char. intros Hp Hs. rewrite Hs in *.
  simpl in Hp. destruct (Digit_getSolvedValue d) as [[n|c|]|e]; try done.
  apply bool_decide_eq_true in Hp. by exists n.
Qed.

Lemma cell_char_unsolved d : Digit_solved d = false → cell_char d = "-"%char.
Proof. unfold cell_char. by intros ->. Qed.

Lemma Digit_tostring_cell set_iteration d :
  printable_digit d = true →
  Digit_tostring set_iteration d false = Ok (String (cell_char d) "").
Proof.
  intros Hp. unfold Digit_tostring. destruct (Digit_solved d) eqn:Hs.
  - destruct (printable_digit_solved d Hp Hs) as (n & Hn & -> & ->).
    simpl. by rewrite (proj1 (pretty_digit n Hn)).
  - by rewrite cell_char_unsolved.
Qed.

Lemma render_false k k' ds : render false k ds = render false k' ds.
Proof.
  revert k k'. induction ds as [|d ds IH]; intros k k'; [done|].
  simpl. f_equal. apply IH.
Qed.

Lemma Grid_tostring_body_cell set_iteration (pretty : bool) d counter acc :
  printable_digit d = true →
  Grid_tostring_body set_iteration pretty d (counter, acc)
  = Ok (if pretty then counter + 1 else counter,
        (acc +:+ String (cell_char d) "")
        +:+ (if pretty && ((counter + 1) mod 9 =? 0) then NEWLINE else "")).
Proof.
  intros Hd. unfold Grid_tostring_body.
  rewrite (Digit_tostring_cell set_iteration d Hd), bind_Ok_l. cbv zeta.
  destruct pretty; cbn [andb]; [|by rewrite str_app_nil_r].
  destruct ((counter + 1) mod 9 =? 0); by rewrite ?str_app_nil_r.
Qed.

Lemma Grid_tostring_loop set_iteration (pretty : bool) ds counter acc :
  Forall (λ d, printable_digit d = true) ds →
  for_each ds (Grid_tostring_body set_iteration pretty) (counter, acc)
  = Ok (if pretty then counter + length ds else counter,
        acc +:+ render pretty counter ds).
Proof.
  intros Hp. revert counter acc.
  induction Hp as [|d ds Hd _ IH]; intros counter acc.
  - simpl. rewrite str_app_nil_r. by destruct pretty; rewrite ?Nat.add_0_r.
  - cbn [for_each].
    rewrite (Grid_tostring_body_cell set_iteration pretty d counter acc Hd).
    rewrite bind_Ok_l, IH. cbn [render length]. f_equal.
    destruct pretty; cbn [andb].
    + f_equal; [lia|]. rewrite !str_app_assoc, str_app_cons. f_equal. f_equal.
      by destruct ((counter + 1) mod 9 =? 0).
    + f_equal. rewrite !str_app_assoc, str_app_cons. f_equal. f_equal.
      apply render_false.
Qed.

Lemma render_length pretty k ds :
  String.length (render pretty k ds)
  = length ds + (if pretty then (k + length ds) / 9 - k / 9 else 0).
Proof.
  revert k. induction ds as [|d ds IH]; intros k.
  - simpl. destruct pretty; [|done]. rewrite Nat.add_0_r. lia.
  - cbn [render length]. destruct pretty; cbn [andb].
    + pose proof (Nat.div_mod_eq k 9) as H1.
      pose proof (Nat.div_mod_eq (k + 1) 9) as H2.
      pose proof (Nat.div_mod_eq (k + 1 + length ds) 9) as H3.
      pose proof (Nat.div_mod_eq (k + S (length ds)) 9) as H4.
      assert (k mod 9 < 9) by (by apply Nat.mod_upper_bound).
      assert ((k + 1) mod 9 < 9) by (by apply Nat.mod_upper_bound).
      assert ((k + 1 + length ds) mod 9 < 9) by (by apply Nat.mod_upper_bound).
      assert ((k + S (length ds)) mod 9 < 9) by (by apply Nat.mod_upper_bound).
      destruct ((k + 1) mod 9 =? 0) eqn:Hm.
      * apply Nat.eqb_eq in Hm. cbn [String.length]. rewrite IH. lia.
      * apply Nat.eqb_neq in Hm. cbn [String.length]. rewrite IH. lia.
    + cbn [String.length]. rewrite IH. lia.
Qed.

(** X10.  When every solved digit is solved to a value from 1 to 9,
    [Grid.tostring] returns, whichever order sets are enumerated in.  The
    string holds one character per digit, in the order of the digits: the
    character of the solved value, or "-" for a digit that is not solved;
    with [pretty] a newline follows every ninth digit.  For the 81 digits of
    a grid that makes 81 characters, or 90 with [pretty]. *)
Theorem Grid_tostring_shape set_iteration g pretty :
  printable g →
  Grid_tostring set_iteration g pretty = Ok (render pretty 0 (digits g)) ∧
  String.length (render pretty 0 (digits g))
  = length (digits g) + (if pretty then length (digits g) / 9 else 0) ∧
  (length (digits g) = 81 →
   String.length (render pretty 0 (digits g)) = if pretty then 90 else 81).
Proof.
  intros Hp. split; [|split].
  - unfold Grid_tostring.
    by rewrite (Grid_tostring_loop set_iteration pretty (digits g) 0 "" Hp).
  - rewrite render_length. destruct pretty; [|done]. simpl. lia.
  - intros Hlen. rewrite render_length, Hlen. by destruct pretty.
Qed.

Lemma Grid_tostring_shape_witness :
  printable example_loaded ∧
  Grid_tostring elements example_loaded true
  = Ok (render true 0 (digits example_loaded)) ∧
  String.length (render true 0 (digits example_loaded)) = 90.
Proof.
  assert (printable example_loaded) as Hp.
  { apply (bool_decide_unpack _). vm_compute. exact I. }
  assert (length (digits example_loaded) = 81) as Hlen.
  { vm_compute. reflexivity. }
  split; [exact Hp|]. split.
  - exact (proj1 (Grid_tostring_shape elements example_loaded true Hp)).
  - exact (proj2 (proj2 (Grid_tostring_shape elements example_loaded true Hp))
             Hlen).
Defined.

(** ** Printing and loading back *)

Lemma Grid_init_unsolved :
  Forall (λ d, Digit_solved d = false) (digits Grid_init).
Proof. apply (bool_decide_unpack _). vm_compute. exact I. Qed.

Lemma newline_terminator : str_contains ROW_TERMINATOR "010"%char = true.
Proof. by vm_compute. Qed.

Lemma dash_unknown :
  str_contains "123456789" "-"%char = false ∧
  str_contains UNKNOWN_DIGIT_INPUT "-"%char = true.
Proof. by vm_compute. Qed.

(** Loading what [render] wrote for the digits [ds], starting at slot [k]:
    the slots below [k] are left alone, the slot of a solved digit receives
    its character, the slot of an unsolved digit is left alone. *)
Lemma load_render (pretty : bool) ds k h :
  Forall (λ d, printable_digit d = true) ds →
  k + length ds ≤ 81 → length (digits h) = 81 →
  ∃ n h', load_loop (render pretty k ds) k h = Ok (n, h') ∧
    (∀ i, i < k → digits h' !! i = digits h !! i) ∧
    (∀ j d, ds !! j = Some d →
       if Digit_solved d
       then ∃ dh, digits h' !! (k + j) = Some dh ∧
                  v dh = {[ PChr (cell_char d) ]}
       else digits h' !! (k + j) = digits h !! (k + j)).
Proof.
  intros Hp. revert k h.
  induction Hp as [|d ds Hd _ IH]; intros k h Hk Hlen.
  - exists k, h. split; [done|]. split; [done|]. by intros j d [=].
  - simpl in Hk. cbn [render]. rewrite load_loop_cons.
    assert ((80 <? k) = false) as -> by (apply Nat.ltb_ge; lia).
    assert (∀ t, load_loop
                   (if pretty && ((k + 1) mod 9 =? 0)
                    then String "010"%char (render pretty (k + 1) ds)
                    else render pretty (k + 1) ds) (k + 1) t
                 = load_loop (render pretty (k + 1) ds) (k + 1) t) as Hrest.
    { intros t. destruct pretty; [|done]. cbn [andb].
      destruct ((k + 1) mod 9 =? 0) eqn:Hm; [|done].
      apply load_loop_terminator_row_start; [apply newline_terminator|].
      by apply Nat.eqb_eq. }
    destruct (Digit_solved d) eqn:Hs.
    + destruct (printable_digit_solved d Hd Hs) as (m & Hm & Hv & Hc).
      rewrite Hc, (proj1 (proj2 (pretty_digit m Hm))).
      destruct (lookup_lt_is_Some_2 (digits h) k) as [dh Hdh]; [lia|].
      rewrite (Digit_setSolvedValue_assign h k dh _ Hdh), bind_Ok_l, Hrest.
      destruct (IH (k + 1) (set_v h k {[ PChr (digit_char m) ]}))
        as (n & h' & Hload & Hframe & Hslots);
        [lia|by rewrite set_v_length|].
      exists n, h'. split; [done|]. split.
      * intros i Hi. rewrite Hframe by lia. rewrite set_v_lookup.
        rewrite decide_False by lia. by destruct (digits h !! i).
      * intros [|j] d' Hd'.
        -- injection Hd' as <-. rewrite Hs, Nat.add_0_r.
           rewrite Hframe by lia. rewrite set_v_lookup, Hdh. simpl.
           rewrite decide_True by done. rewrite Hc. eauto.
        -- simpl in Hd'. specialize (Hslots j d' Hd').
           replace (k + S j) with (k + 1 + j) by lia.
           destruct (Digit_solved d'); [done|].
           rewrite Hslots, set_v_lookup. rewrite decide_False by lia.
           by destruct (digits h !! (k + 1 + j)).
    + rewrite (cell_char_unsolved d Hs).
      destruct dash_unknown as [-> ->]. rewrite Hrest.
      destruct (IH (k + 1) h) as (n & h' & Hload & Hframe & Hslots);
        [lia|done|].
      exists n, h'. split; [done|]. split.
      * intros i Hi. apply Hframe. lia.
      * intros [|j] d' Hd'.
        -- injection Hd' as <-. rewrite Hs, Nat.add_0_r. apply Hframe. lia.
        -- simpl in Hd'. specialize (Hslots j d' Hd').
           by replace (k + S j) with (k + 1 + j) by lia.
Qed.

(** X11.  Round trip.  Let [g] be a grid of the program in which every
    solved digit is solved to a value from 1 to 9.  Whatever [pretty] is,
    [g.tostring(pretty)] returns a string which [load] accepts on a fresh
    grid, and in the grid loaded from it every digit is solved to the same
    value as in [g], or unsolved as in [g].  (The candidates of an unsolved
    digit are not printed: after loading it has all nine again.) *)
Theorem tostring_load_round_trip set_iteration g (pretty : bool) :
  well_formed g → printable g →
  ∃ s g', Grid_tostring set_iteration g pretty = Ok s ∧
          Grid_load Grid_init s = Ok g' ∧ well_formed g' ∧
          (∀ i, i < 81 → solved_value g' i = solved_value g i) ∧
          (∀ i d, digits g !! i = Some d → Digit_solved d = false →
                  digits g' !! i = digits Grid_init !! i).
Proof.
  intros Hwf Hp. exists (render pretty 0 (digits g)).
  destruct (Grid_load_total Grid_init (render pretty 0 (digits g))
              well_formed_init) as (g' & Hg' & Hwf' & _).
  exists g'. split.
  { unfold Grid_tostring.
    by rewrite (Grid_tostring_loop set_iteration pretty (digits g) 0 "" Hp). }
  split; [exact Hg'|]. split; [exact Hwf'|].
  destruct (load_render pretty (digits g) 0 Grid_init Hp)
    as (n & h' & Hload & _ & Hslots).
  { rewrite (well_formed_length g Hwf). lia. }
  { apply Grid_init_length. }
  unfold Grid_load in Hg'. rewrite Hload in Hg'. simpl in Hg'.
  injection Hg' as <-.
  assert (∀ i d, digits g !! i = Some d → Digit_solved d = false →
            digits h' !! i = digits Grid_init !! i) as Hunsolved.
  { intros i d Hd Hs. specialize (Hslots i d Hd). by rewrite Hs in Hslots. }
  split; [|exact Hunsolved].
  intros i Hi. destruct (well_formed_lookup g i Hwf Hi) as [d Hd].
  destruct (Digit_solved d) eqn:Hs.
  - pose proof (Hslots i d Hd) as Hslot. rewrite Hs in Hslot. simpl in Hslot.
    destruct Hslot as (dh & Hdh & Hvh).
    destruct (printable_digit_solved d (Forall_lookup_1 _ _ _ _ Hp Hd) Hs)
      as (m & Hm & Hv & Hc).
    destruct (Digit_getSolvedValue_Ok d _ Hs Hv) as (x & m' & Hx & Hx' & [= <-]).
    transitivity (Some m).
    + apply solved_value_Some. exists dh, (PChr (cell_char d)).
      split; [exact Hdh|]. split; [exact Hvh|].
      rewrite Hc. apply (pretty_digit m Hm).
    + symmetry. apply solved_value_Some. by exists d, x.
  - unfold solved_value. simpl. rewrite (Hunsolved i d Hd Hs), Hd, Hs.
    destruct (digits Grid_init !! i) as [di|] eqn:Hdi; [|reflexivity].
    by rewrite (Forall_lookup_1 _ _ _ _ Grid_init_unsolved Hdi).
Qed.

Lemma tostring_load_round_trip_witness :
  well_formed example_loaded ∧ printable example_loaded ∧
  ∃ s g', Grid_tostring elements example_loaded true = Ok s ∧
          Grid_load Grid_init s = Ok g' ∧ well_formed g' ∧
          (∀ i, i < 81 → solved_value g' i = solved_value example_loaded i) ∧
          (∀ i d, digits example_loaded !! i = Some d →
                  Digit_solved d = false →
                  digits g' !! i = digits Grid_init !! i).
Proof.
  assert (well_formed example_loaded) as Hwf.
  { split; vm_compute; reflexivity. }
  assert (printable example_loaded) as Hp.
  { apply (bool_decide_unpack _). vm_compute. exact I. }
  split; [exact Hwf|]. split; [exact Hp|].
  exact (tostring_load_round_trip elements example_loaded true Hwf Hp).
Defined.

(** ** Printing a group *)

Lemma Grid_init_group_sizes :
  Forall (λ grp, length (group_digits grp) = 9)
         (rows Grid_init ++ cols Grid_init ++ boxes Grid_init).
Proof. apply (bool_decide_unpack _). vm_compute. exact I. Qed.

Lemma cells_length (f : nat → ascii) (ms : list nat) :
  String.length (foldr (λ i acc, String (f i) acc) "" ms) = length ms.
Proof. induction ms as [|m ms IH]; simpl; [done|]. by rewrite IH. Qed.

(** X12.  For each of the 27 groups of a grid of the program in which every
    solved digit is solved to a value from 1 to 9,
    [DigitGroup.tostring()] returns a string of exactly 9 characters: for
    each member in turn the character of its solved value, or "-". *)
Theorem DigitGroup_tostring_shape set_iteration g grp :
  well_formed g → printable g → grp ∈ groups g →
  DigitGroup_tostring set_iteration g grp false
  = Ok (foldr (λ i acc, String (cell_char (digit_at g i)) acc) ""
          (group_digits grp)) ∧
  String.length (foldr (λ i acc, String (cell_char (digit_at g i)) acc) ""
                   (group_digits grp)) = 9.
Proof.
  intros Hwf Hp Hgrp.
  assert (length (group_digits grp) = 9 ∧
          Forall (λ i, i < 81) (group_digits grp)) as [Hsize Hrange].
  { unfold groups in Hgrp.
    rewrite (wf_rows g Hwf), (wf_cols g Hwf), (wf_boxes g Hwf) in Hgrp.
    pose proof Grid_init_group_sizes as Hs.
    pose proof Grid_init_members_range as Hr.
    rewrite Forall_forall in Hs. rewrite Forall_forall in Hr.
    split; [exact (Hs grp Hgrp)|exact (Hr grp Hgrp)]. }
  split; [|by rewrite cells_length].
  unfold DigitGroup_tostring.
  match goal with
  | |- context [for_each _ ?body _] =>
      assert (∀ ms acc, Forall (λ i, i < 81) ms →
                for_each ms body acc
                = Ok (acc +:+ foldr (λ i acc, String (cell_char (digit_at g i))
                                       acc) "" ms)) as Hloop
  end.
  { intros ms acc Hms. revert acc.
    induction Hms as [|m ms Hm _ IH]; intros acc.
    - simpl. by rewrite str_app_nil_r.
    - cbn [for_each foldr].
      destruct (well_formed_lookup g m Hwf Hm) as [d Hd].
      rewrite (get_digit_lookup g m d Hd), bind_Ok_l.
      rewrite (Digit_tostring_cell set_iteration d
                 (Forall_lookup_1 _ _ _ _ Hp Hd)), bind_Ok_l.
      cbv zeta. rewrite bind_Ok_l, IH.
      rewrite str_app_assoc, str_app_cons. unfold digit_at. by rewrite Hd. }
  by rewrite Hloop.
Qed.

Lemma DigitGroup_tostring_shape_witness :
  well_formed example_loaded ∧ printable example_loaded ∧
  DigitGroup_tostring elements example_loaded
    (mkDigitGroup [0; 1; 2; 3; 4; 5; 6; 7; 8]) false
  = Ok (foldr (λ i acc, String (cell_char (digit_at example_loaded i)) acc) ""
          [0; 1; 2; 3; 4; 5; 6; 7; 8]).
Proof.
  assert (well_formed example_loaded) as Hwf.
  { split; vm_compute; reflexivity. }
  assert (printable example_loaded) as Hp.
  { apply (bool_decide_unpack _). vm_compute. exact I. }
  assert (mkDigitGroup [0; 1; 2; 3; 4; 5; 6; 7; 8] ∈ groups example_loaded)
    as Hgrp.
  { apply (bool_decide_unpack _). vm_compute. exact I. }
  split; [exact Hwf|]. split; [exact Hp|].
  exact (proj1 (DigitGroup_tostring_shape elements example_loaded
                  (mkDigitGroup [0; 1; 2; 3; 4; 5; 6; 7; 8]) Hwf Hp Hgrp)).
Defined.

(** ** The path of the driver never raises *)

Lemma value_ok_Ok x :
  value_ok x = true ↔ ∃ n, py_int x = Ok n ∧ (1 ≤ n ≤ 9)%Z.
Proof.
  unfold value_ok. destruct (py_int x) as [n|e]; split.
  - intros H%bool_decide_eq_true. eauto.
  - intros (m & [= <-] & Hm). by apply bool_decide_eq_true.
  - done.
  - by intros (m & [=] & _).
Qed.

Lemma in_range_init : in_range Grid_init.
Proof. apply (bool_decide_unpack _). vm_compute. exact I. Qed.

Lemma grid_narrows_in_range g g' : grid_narrows g g' → in_range g → in_range g'.
Proof.
  intros Hn Hin. apply Forall_lookup_2. intros i d' Hd' x Hx.
  destruct (grid_narrows_lookup_r g g' i d' Hn Hd') as (d & Hd & Hdd).
  apply (Forall_lookup_1 _ _ _ _ Hin Hd). by apply (narrows_subseteq _ _ Hdd).
Qed.

Lemma in_range_numeric g : in_range g → numeric g.
Proof.
  intros Hin. eapply Forall_impl; [exact Hin|]. intros d Hd x Hx.
  apply py_int_ok_Ok. destruct (proj1 (value_ok_Ok x) (Hd x Hx)) as (n & Hn & _).
  eauto.
Qed.

Lemma in_range_printable g : in_range g → printable g.
Proof.
  intros Hin. eapply Forall_impl; [exact Hin|]. intros d Hd.
  unfold printable_digit. destruct (Digit_solved d) eqn:Hs; [|done]. simpl.
  destruct (proj1 (Digit_solved_singleton d) Hs) as [x Hx].
  destruct (proj1 (value_ok_Ok x)) as (n & Hn & Hrange).
  { apply Hd. rewrite Hx. by apply elem_of_singleton. }
  rewrite (Digit_getSolvedValue_singleton d x Hx), Hn. simpl.
  by apply bool_decide_eq_true.
Qed.

Lemma known_digit_value_ok c :
  str_contains "123456789" c = true → value_ok (PChr c) = true.
Proof.
  intros Hc. cbv beta iota delta [str_contains] in Hc.
  repeat (case_decide; [subst c; by vm_compute|]). done.
Qed.

Lemma load_fresh_in_range puzzle : in_range (load_fresh puzzle).
Proof.
  destruct (load_fresh_Ok puzzle) as (Hload & _).
  apply (Grid_load_inv in_range Grid_init puzzle); [| |apply in_range_init|done].
  - intros t i c Ht Hc. apply Forall_lookup_2. intros j d'.
    rewrite set_v_lookup.
    destruct (digits t !! j) as [d|] eqn:Hd; simpl; [|done].
    intros [= <-]. case_decide; simpl.
    + intros x ->%elem_of_singleton. by apply known_digit_value_ok.
    + by apply (Forall_lookup_1 _ _ _ _ Ht Hd).
  - intros t Ht. exact Ht.
Qed.

(** X13.  No call on the path of the driver raises.  Every puzzle loads into
    a fresh grid, giving a grid of the program whose candidates all stand
    for values from 1 to 9.  On every such grid [tostring] returns (in both
    layouts), [propagate_all] returns another such grid, and the solve loop
    returns, for every cap, with such a grid. *)
Theorem driver_never_raises :
  (∀ puzzle, ∃ g, Grid_load Grid_init puzzle = Ok g ∧ well_formed g ∧
                  in_range g) ∧
  (∀ g, well_formed g → in_range g →
     (∀ set_iteration pretty,
        ∃ s, Grid_tostring set_iteration g pretty = Ok s) ∧
     (∃ g', Grid_propagate_all g = Ok g' ∧ well_formed g' ∧ in_range g') ∧
     (∀ max_iterations,
        ∃ o, solve max_iterations g = Ok o ∧
             well_formed (outcome_grid o) ∧ in_range (outcome_grid o))).
Proof.
  split.
  { intros puzzle. exists (load_fresh puzzle).
    destruct (load_fresh_Ok puzzle) as (Hload & Hwf & _).
    split; [done|]. split; [done|]. apply load_fresh_in_range. }
  intros g Hwf Hin. pose proof (in_range_numeric g Hin) as Hnum.
  split; [|split].
  - intros set_iteration pretty. eexists. unfold Grid_tostring.
    by rewrite (Grid_tostring_loop set_iteration pretty (digits g) 0 ""
                  (in_range_printable g Hin)).
  - destruct (Grid_propagate_all_total g Hwf Hnum) as (g' & Hg' & Hwf' & _).
    exists g'. split; [done|]. split; [done|].
    by apply (grid_narrows_in_range g g' (Grid_propagate_all_narrows g g' Hg')).
  - intros cap.
    destruct (solve_loop_bound (cap - 1) 1 g Hwf Hnum) as (o & Ho & _).
    exists o. split; [done|].
    destruct (solve_loop_outcome _ _ _ Ho) as [Hn _].
    split; [by apply (grid_narrows_well_formed g)|].
    by apply (grid_narrows_in_range g).
Qed.

Lemma driver_never_raises_witness :
  well_formed example_loaded ∧ in_range example_loaded ∧
  ∃ o, solve MAX_ITERATIONS example_loaded = Ok o ∧
       well_formed (outcome_grid o) ∧ in_range (outcome_grid o).
Proof.
  assert (well_formed example_loaded) as Hwf.
  { split; vm_compute; reflexivity. }
  assert (in_range example_loaded) as Hin.
  { apply (bool_decide_unpack _). vm_compute. exact I. }
  split; [exact Hwf|]. split; [exact Hin|].
  exact (proj2 (proj2 (proj2 driver_never_raises example_loaded Hwf Hin))
           MAX_ITERATIONS).
Defined.

(** ** Positions and the fresh grid *)

(** X14.  [row_col_box] splits a position into row and column and back:
    [position = 9 * row + column] with [column < 9] for every position, the
    row and box are below 9 for the 81 positions of a grid, and row [r],
    column [c] (both below 9) belong to position [9 * r + c], whose box is
    [3 * (r / 3) + c / 3]. *)
Theorem row_col_box_round_trip :
  (∀ p r c b, row_col_box p = (r, c, b) →
     p = 9 * r + c ∧ c < 9 ∧ b = r / 3 * 3 + c / 3 ∧
     (p < 81 → r < 9 ∧ b < 9)) ∧
  (∀ r c, r < 9 → c < 9 →
     row_col_box (9 * r + c) = (r, c, r / 3 * 3 + c / 3) ∧ 9 * r + c < 81).
Proof.
  split.
  - intros p r c b. rewrite row_col_box_eq. unfold box_of. intros Heq.
    assert (r = p / 9) as -> by congruence.
    assert (c = p mod 9) as -> by congruence.
    assert (b = p / 9 / 3 * 3 + p mod 9 / 3) as -> by congruence.
    clear Heq.
    pose proof (Nat.div_mod_eq p 9) as Hp.
    assert (p mod 9 < 9) as Hc by (by apply Nat.mod_upper_bound).
    split; [done|]. split; [done|]. split; [done|]. intros Hlt.
    pose proof (Nat.div_mod_eq (p / 9) 3) as Hr.
    pose proof (Nat.div_mod_eq (p mod 9) 3) as Hc3.
    assert ((p / 9) mod 3 < 3) by (by apply Nat.mod_upper_bound).
    assert ((p mod 9) mod 3 < 3) by (by apply Nat.mod_upper_bound).
    lia.
  - intros r c Hr Hc. split; [|lia]. unfold row_col_box.
    assert ((9 * r + c) / 9 = r) as ->.
    { symmetry. by apply (Nat.div_unique _ 9 r c). }
    assert ((9 * r + c) mod 9 = c) as ->.
    { symmetry. by apply (Nat.mod_unique _ 9 r c). }
    done.
Qed.

Lemma row_col_box_round_trip_witness :
  row_col_box 35 = (3, 8, 5) ∧ 35 = 9 * 3 + 8 ∧ 8 < 9 ∧ 5 = 3 / 3 * 3 + 8 / 3.
Proof.
  assert (row_col_box 35 = (3, 8, 5)) as H by reflexivity.
  split; [exact H|].
  destruct (proj1 row_col_box_round_trip 35 3 8 5 H) as (H1 & H2 & H3 & _).
  split; [exact H1|]. split; [exact H2|exact H3].
Defined.

(** X15.  [Grid()] builds a grid that is not loaded, with 81 digits each
    having exactly the nine integer candidates 1..9 (none solved, so 81
    unsolved), and 9 rows, 9 columns and 9 boxes of 9 distinct members each;
    every digit has exactly 20 other digits in its row, column or box. *)
Theorem Grid_init_postcondition :
  loaded Grid_init = false ∧ length (digits Grid_init) = 81 ∧
  Grid_number_unsolved Grid_init = 81 ∧ Grid_solved Grid_init = false ∧
  Forall (λ d, size (v d) = 9 ∧
               Forall (λ x, x ∈ v d) default_values) (digits Grid_init) ∧
  length (rows Grid_init) = 9 ∧ length (cols Grid_init) = 9 ∧
  length (boxes Grid_init) = 9 ∧
  Forall (λ grp, length (group_digits grp) = 9 ∧ NoDup (group_digits grp))
         (groups Grid_init) ∧
  Forall (λ p,
            length (filter (λ q, q ≠ p ∧
                                 peers (digit_at Grid_init p)
                                       (digit_at Grid_init q))
                           (seq 0 81)) = 20)
         (seq 0 81).
Proof.
  split; [reflexivity|]. split; [apply Grid_init_length|].
  split; [vm_compute; reflexivity|]. split; [vm_compute; reflexivity|].
  split; [apply (bool_decide_unpack _); vm_compute; exact I|].
  split; [vm_compute; reflexivity|]. split; [vm_compute; reflexivity|].
  split; [vm_compute; reflexivity|].
  split; apply (bool_decide_unpack _); vm_compute; exact I.
Qed.

(** ** A stall is final *)

Lemma count_unsolved_eq (ds ds' : list Digit) :
  Forall2 (λ d d', Digit_solved d = true → Digit_solved d' = true) ds ds' →
  count_unsolved ds' = count_unsolved ds →
  Forall2 (λ d d', Digit_solved d' = true → Digit_solved d = true) ds ds'.
Proof.
  unfold count_unsolved. induction 1 as [|d d' ds ds' Hd Hds IH]; [done|].
  pose proof (count_unsolved_le ds ds' Hds) as Hle. unfold count_unsolved in Hle.
  destruct (Digit_solved d) eqn:Hs.
  - rewrite (filter_cons_False _ d) by (by rewrite Hs).
    rewrite (filter_cons_False _ d') by (by rewrite Hd).
    intros Heq. constructor; [simpl; congruence|]. by apply IH.
  - rewrite (filter_cons_True _ d) by done.
    destruct (Digit_solved d') eqn:Hs'.
    + rewrite (filter_cons_False _ d') by (by rewrite Hs'). simpl. lia.
    + rewrite (filter_cons_True _ d') by done. simpl.
      intros [= Heq]. constructor; [simpl; congruence|]. by apply IH.
Qed.

(** After a whole pass, the value of a digit that was solved before the pass
    is no candidate of any of its peers that is still unsolved. *)
Lemma Grid_propagate_all_peers g c d value g' p dp' :
  well_formed g → digits g !! c = Some d → Digit_solved d = true →
  Digit_getSolvedValue d = Ok value → Grid_propagate_all g = Ok g' →
  p ≠ c → digits g' !! p = Some dp' → peers d dp' →
  Digit_solved dp' = false → value ∉ v dp'.
Proof.
  intros Hwf Hd Hs Hv Hall Hpc Hdp' Hpeer Hu.
  assert (c < length (digits g)) as Hc by by eapply lookup_lt_Some.
  unfold Grid_propagate_all in Hall.
  replace (length (digits g)) with (c + S (length (digits g) - S c)) in Hall
    by lia.
  rewrite seq_app, for_each_app in Hall. simpl in Hall.
  apply bind_Ok in Hall as (g1 & H1%for_each_propagate_narrows & Hall).
  apply bind_Ok in Hall as (g2 & Hc2 & H2%for_each_propagate_narrows).
  destruct (gn_digits _ _ H1 c d Hd) as (d1 & Hd1 & Hdd1).
  pose proof (grid_narrows_well_formed _ _ H1 Hwf) as Hwf1.
  destruct (Digit_propagate_peers g1 c d1 value Hwf1 Hd1)
    as (g2' & Hc2' & Hpeers).
  { by eapply narrows_keeps_solved. }
  { rewrite <- Hv. apply Digit_getSolvedValue_ext. by apply Hdd1. }
  assert (g2' = g2) as -> by congruence.
  destruct (grid_narrows_lookup_r _ _ p dp' H2 Hdp') as (dp2 & Hdp2 & Hn2).
  pose proof (Digit_propagate_narrows _ _ _ Hc2) as H12.
  destruct (grid_narrows_lookup_r _ _ p dp2 H12 Hdp2) as (dp1 & Hdp1 & Hn1).
  intros Hin. apply (Hpeers p dp1 dp2 Hpc Hdp1); [|done| |].
  - apply (peers_narrows d d1 dp1 dp'); [done|by etrans|done].
  - right. by eapply narrows_unsolved.
  - by apply (narrows_subseteq _ _ Hn2).
Qed.

Lemma stalled_pass_fully_propagated g g' :
  well_formed g → Grid_propagate_all g = Ok g' →
  Grid_number_unsolved g' = Grid_number_unsolved g →
  fully_propagated g'.
Proof.
  intros Hwf Hall Hcount c d' value p dp' Hd' Hs' Hv' Hdp' Hpeers Hu.
  pose proof (Grid_propagate_all_narrows g g' Hall) as Hn.
  destruct (grid_narrows_lookup_r g g' c d' Hn Hd') as (d & Hd & Hdd).
  assert (Digit_solved d = true) as Hs.
  { rewrite !Grid_number_unsolved_count in Hcount.
    apply count_unsolved_eq in Hcount.
    - by apply (Forall2_lookup_lr _ _ _ c d d' Hcount).
    - eapply Forall2_impl; [by apply grid_narrows_Forall2|].
      intros x y. apply narrows_keeps_solved. }
  pose proof (narrows_solved _ _ Hdd Hs) as Hvd.
  apply (Grid_propagate_all_peers g c d value g' p dp' Hwf Hd Hs); try done.
  - rewrite <- Hv'. symmetry. by apply Digit_getSolvedValue_ext.
  - intros ->. congruence.
  - unfold peers in *.
    by rewrite <- (narrows_row _ _ Hdd), <- (narrows_col _ _ Hdd),
      <- (narrows_box _ _ Hdd).
Qed.

Lemma solve_loop_stalled its g it g' :
  solve_loop its g = Ok (Stalled it g') →
  ∃ g0, grid_narrows g g0 ∧ Grid_propagate_all g0 = Ok g' ∧
        Grid_number_unsolved g' = Grid_number_unsolved g0.
Proof.
  revert g. induction its as [|it' its IH]; intros g; simpl; [done|].
  destruct (Grid_solved g); [done|].
  intros (g1 & Hg1 & Hrest)%bind_Ok. case_decide as Hstall.
  - injection Hrest as _ <-. by exists g.
  - destruct (IH g1 Hrest) as (g0 & Hn & Hg0).
    exists g0. split; [|done]. etrans; [|done].
    by apply Grid_propagate_all_narrows.
Qed.

(** X16.  A stall is final.  If a pass of [propagate_all()] over a grid of
    the program leaves the number of unsolved digits unchanged, then in the
    resulting grid nothing is left to propagate, and a further pass returns
    it unchanged.  In particular the grid with which the solve loop reports
    a stall is a fixpoint of [propagate_all()]: stopping there loses
    nothing. *)
Theorem stall_is_final :
  (∀ g g', well_formed g → numeric g → Grid_propagate_all g = Ok g' →
     Grid_number_unsolved g' = Grid_number_unsolved g →
     fully_propagated g' ∧ Grid_propagate_all g' = Ok g') ∧
  (∀ max_iterations g it g',
     well_formed g → numeric g →
     solve max_iterations g = Ok (Stalled it g') →
     Grid_propagate_all g' = Ok g').
Proof.
  assert (∀ g g', well_formed g → numeric g → Grid_propagate_all g = Ok g' →
            Grid_number_unsolved g' = Grid_number_unsolved g →
            fully_propagated g' ∧ Grid_propagate_all g' = Ok g') as Hfinal.
  { intros g g' Hwf Hnum Hall Hcount.
    pose proof (stalled_pass_fully_propagated g g' Hwf Hall Hcount) as Hfull.
    split; [done|].
    pose proof (Grid_propagate_all_narrows g g' Hall) as Hn.
    pose proof (grid_narrows_well_formed g g' Hn Hwf) as Hwf'.
    pose proof (grid_narrows_numeric g g' Hn Hnum) as Hnum'.
    unfold Grid_propagate_all.
    destruct (for_each_total (λ t, t = g') (seq 0 (length (digits g')))
                (λ i g, Digit_propagate g i) g') as (t & Ht & ->);
      [|done|done].
    intros i t [_ Hi]%elem_of_seq ->. exists g'. split; [|done].
    by apply Digit_propagate_fixpoint. }
  split; [exact Hfinal|].
  intros cap g it g' Hwf Hnum Hsolve.
  destruct (solve_loop_stalled _ _ _ _ Hsolve) as (g0 & Hn & Hall & Hcount).
  apply (Hfinal g0 g'); try done.
  - by apply (grid_narrows_well_formed g).
  - by apply (grid_narrows_numeric g).
Qed.

Lemma stall_is_final_witness :
  well_formed (load_fresh "5") ∧ numeric (load_fresh "5") ∧
  ∃ it g', solve MAX_ITERATIONS (load_fresh "5") = Ok (Stalled it g') ∧
           Grid_propagate_all g' = Ok g'.
Proof.
  assert (well_formed (load_fresh "5")) as Hwf.
  { split; vm_compute; reflexivity. }
  assert (numeric (load_fresh "5")) as Hnum.
  { apply (bool_decide_unpack _). vm_compute. exact I. }
  split; [exact Hwf|]. split; [exact Hnum|].
  assert (is_stalled (unwrap (Exhausted Grid_init)
                        (solve MAX_ITERATIONS (load_fresh "5"))) = true)
    as Hstalled.
  { vm_compute. reflexivity. }
  assert (solve MAX_ITERATIONS (load_fresh "5")
          = Ok (unwrap (Exhausted Grid_init)
                  (solve MAX_ITERATIONS (load_fresh "5")))) as Hsolve.
  { apply unwrap_Ok.
    destruct (solve_loop_bound (MAX_ITERATIONS - 1) 1 (load_fresh "5")
                Hwf Hnum) as (o & Ho & _).
    exists o. exact Ho. }
  revert Hstalled Hsolve.
  generalize (unwrap (Exhausted Grid_init)
                (solve MAX_ITERATIONS (load_fresh "5"))).
  intros [it g'|it g'|g'] Hstalled Hsolve;
    [discriminate Hstalled| |discriminate Hstalled].
  exists it, g'. split; [exact Hsolve|].
  exact (proj2 stall_is_final MAX_ITERATIONS (load_fresh "5") it g'
           Hwf Hnum Hsolve).
Defined.
